(** * Routecast client: polyline decoding, alert de-duplication,
      road-surface classification, saved routes and premium status.

    A shallow embedding of the pure parts of the Routecast client
    (TypeScript, React Native) and the properties its specification
    states about them. *)

From Stdlib Require Import ZArith QArith Qround Lqa Lia List Bool Ascii.
From stdpp Require Import base option list strings numbers gmap pretty.

Local Open Scope Z_scope.

(** ** JavaScript numbers and 32-bit integer operators

    A JavaScript number that is an integer or [NaN] is an [option Z]
    ([None] is [NaN]).  The bitwise operators first convert their operands
    with [ToInt32], which sends [NaN] to [0] and wraps every integer into
    [-2^31, 2^31). *)
Module JS.

Definition wrap32 (z : Z) : Z := (z + 2 ^ 31) mod 2 ^ 32 - 2 ^ 31.

Definition ToInt32 (x : option Z) : Z :=
  match x with
  | None => 0
  | Some z => wrap32 z
  end.

(** [a & b] *)
Definition and (a b : option Z) : Z := Z.land (ToInt32 a) (ToInt32 b).

(** [a | b] *)
Definition or (a b : option Z) : Z := Z.lor (ToInt32 a) (ToInt32 b).

(** [a << n]: the shift count is taken modulo 32, the result wraps. *)
Definition shl (a n : option Z) : Z :=
  wrap32 (Z.shiftl (ToInt32 a) (ToInt32 n mod 32)).

(** [a >> n]: arithmetic shift of the 32-bit value. *)
Definition sar (a n : option Z) : Z :=
  Z.shiftr (ToInt32 a) (ToInt32 n mod 32).

(** [~a] *)
Definition not (a : option Z) : Z := Z.lnot (ToInt32 a).

(** [a >= b] on numbers: false as soon as one side is [NaN]. *)
Definition ge (a b : option Z) : bool :=
  match a, b with
  | Some x, Some y => y <=? x
  | _, _ => false
  end.

(** A string is its sequence of UTF-16 code units;
    [s.charCodeAt(i)] is [NaN] outside the string. *)
Definition charCodeAt (s : list Z) (i : nat) : option Z := s !! i.

(** [x - k] *)
Definition sub (x : option Z) (k : Z) : option Z := (fun z => z - k) <$> x.

End JS.

(** ** decodePolyline (frontend/app/route.tsx and the route screens)

  The source keeps four textually identical copies of the decoder; they
  differ only in the shape of a pushed point (object or pair).  The
  coordinates [lat / 1e5] and [lng / 1e5] pushed by the source are
  represented by their exact numerators [lat] and [lng], that is in units
  of 1e-5 degree. *)
Module Polyline.

Record LatLng := mkLatLng { latitude : Z; longitude : Z }.

(** The [do { ... } while (byte >= 0x20)] loop.  Returns the final
    [result] and [index]; [None] only when [fuel] runs out. *)
Fixpoint readGroup (fuel : nat) (encoded : list Z) (index : nat)
    (shift result : Z) : option (Z * nat) :=
  match fuel with
  | O => None
  | S fuel' =>
      let byte := JS.sub (JS.charCodeAt encoded index) 63 in
      let index := S index in
      let result :=
        JS.or (Some result) (Some (JS.shl (Some (JS.and byte (Some 31))) (Some shift))) in
      let shift := shift + 5 in
      if JS.ge byte (Some 32)
      then readGroup fuel' encoded index shift result
      else Some (result, index)
  end.

(** [result & 1 ? ~(result >> 1) : result >> 1] *)
Definition unzigzag (result : Z) : Z :=
  if JS.and (Some result) (Some 1) =? 0
  then JS.sar (Some result) (Some 1)
  else JS.not (Some (JS.sar (Some result) (Some 1))).

(** The [while (index < encoded.length)] loop. *)
Fixpoint decodeLoop (fuel : nat) (encoded : list Z) (index : nat)
    (lat lng : Z) (points : list LatLng) : option (list LatLng) :=
  match fuel with
  | O => None
  | S fuel' =>
      if (index <? length encoded)%nat then
        match readGroup fuel encoded index 0 0 with
        | None => None
        | Some (result, index) =>
            let lat := lat + unzigzag result in
            match readGroup fuel encoded index 0 0 with
            | None => None
            | Some (result, index) =>
                let lng := lng + unzigzag result in
                decodeLoop fuel' encoded index lat lng
                  (points ++ [mkLatLng lat lng])
            end
        end
      else Some points
  end.

(** [decodePolyline encoded]; the budget covers every read of the string
    and the reads past its end. *)
Definition decodePolyline (encoded : list Z) : option (list LatLng) :=
  decodeLoop (length encoded + 2) encoded 0 0 0 [].

(** Code units of an ASCII literal. *)
Fixpoint codeUnits (s : string) : list Z :=
  match s with
  | EmptyString => []
  | String a rest => Z.of_nat (Ascii.nat_of_ascii a) :: codeUnits rest
  end.

(** Modelled from the spec: the encoder lives in the routing service,
    outside the client sources.  Section 4.1 describes it as the inverse
    of the decoder: each coordinate in units of 1e-5 degree, the
    difference to the previous point zig-zag encoded and cut into 5-bit
    groups, low group first, every group but the last carrying the
    continuation bit 0x20, each group offset by 63. *)
Definition zigzag (d : Z) : Z :=
  if d <? 0 then Z.lnot (Z.shiftl d 1) else Z.shiftl d 1.

Fixpoint encodeGroups (n : nat) (v : Z) : list Z :=
  match n with
  | O => []
  | S n' =>
      if 32 <=? v
      then (Z.lor 32 (Z.land v 31) + 63) :: encodeGroups n' (Z.shiftr v 5)
      else [v + 63]
  end.

(** Seven groups hold every zig-zag value below 2^35. *)
Definition encodeSigned (d : Z) : list Z := encodeGroups 7 (zigzag d).

Fixpoint encodeFrom (lat lng : Z) (points : list LatLng) : list Z :=
  match points with
  | [] => []
  | p :: rest =>
      encodeSigned (latitude p - lat) ++ encodeSigned (longitude p - lng)
        ++ encodeFrom (latitude p) (longitude p) rest
  end.

Definition encode (points : list LatLng) : list Z := encodeFrom 0 0 points.

(** Valid coordinates: latitude within 90 degrees, longitude within 180. *)
Definition validPoint (p : LatLng) : Prop :=
  -9000000 <= latitude p <= 9000000 /\ -18000000 <= longitude p <= 18000000.

Definition inBounds (lat lng : Z) : Prop := validPoint (mkLatLng lat lng).

(** The last point of a list, [(lat, lng)] for the empty list: where the
    decoder stands after the list. *)
Definition lastOr (lat lng : Z) (pts : list LatLng) : LatLng :=
  default (mkLatLng lat lng) (last pts).

End Polyline.

(** ** Route-level alert list (route screen) and uniqById (home screen) *)
Module Alerts.

Record WeatherAlert := mkAlert {
  id : string;
  headline : string;
  severity : string;
  event : string;
  description : string;
  areas : option string
}.

(** The [waypoint] and [weather] fields play no part in the alert list
    and are left out. *)
Record WaypointWeather := mkWaypointWeather {
  alerts : list WeatherAlert;
  error : option string
}.

(** [Array.prototype.findIndex]: the first index whose element satisfies
    [p], [-1] when there is none. *)
Fixpoint findIndexFrom {A} (p : A -> bool) (i : Z) (l : list A) : Z :=
  match l with
  | [] => -1
  | a :: rest => if p a then i else findIndexFrom p (i + 1) rest
  end.

Definition findIndex {A} (p : A -> bool) (self : list A) : Z :=
  findIndexFrom p 0 self.

(** [Array.prototype.filter] with the three-argument callback
    [(element, index, self)]. *)
Fixpoint filterFrom {A} (p : A -> Z -> bool) (i : Z) (l : list A) : list A :=
  match l with
  | [] => []
  | a :: rest =>
      if p a i then a :: filterFrom p (i + 1) rest
      else filterFrom p (i + 1) rest
  end.

Definition filter3 {A} (p : A -> Z -> list A -> bool) (self : list A) : list A :=
  filterFrom (fun a i => p a i self) 0 self.

(** [routeData.waypoints.flatMap((wp) => wp.alerts)] *)
Definition allAlerts (waypoints : list WaypointWeather) : list WeatherAlert :=
  concat (map alerts waypoints).

(** [allAlerts.filter((alert, index, self) =>
       index === self.findIndex((a) => a.id === alert.id))] *)
Definition uniqueAlerts (allAlerts : list WeatherAlert) : list WeatherAlert :=
  filter3
    (fun alert index self =>
       index =? findIndex (fun a => String.eqb (id a) (id alert)) self)
    allAlerts.

(** [uniqById]: one pass with a [Set] of the ids already seen. *)
Definition uniqByIdStep {T} (getId : T -> string)
    (st : gset string * list T) (item : T) : gset string * list T :=
  let '(seen, out) := st in
  if decide (getId item ∈ seen) then (seen, out)
  else ({[getId item]} ∪ seen, out ++ [item]).

Definition uniqById {T} (getId : T -> string) (arr : list T) : list T :=
  snd (foldl (uniqByIdStep getId) (∅, []) arr).

(** Reference reading of "each distinct id once, in order of first
    appearance": walk the list, keep an element exactly when its id has
    not been met before. *)
Fixpoint firstById {T} (getId : T -> string) (seen : list string)
    (l : list T) : list T :=
  match l with
  | [] => []
  | a :: rest =>
      if decide (getId a ∈ seen) then firstById getId seen rest
      else a :: firstById getId (getId a :: seen) rest
  end.

End Alerts.

(** ** Strings of the weather provider

  A string whose code units are all below 256 is a [string], one
  character per code unit. *)
Module Str.

Fixpoint startsWith (s prefix : string) : bool :=
  match prefix, s with
  | EmptyString, _ => true
  | String a p, String b r => Ascii.eqb a b && startsWith r p
  | String _ _, EmptyString => false
  end.

(** [s.includes(sub)] *)
Fixpoint includes (s sub : string) : bool :=
  startsWith s sub ||
  match s with
  | EmptyString => false
  | String _ rest => includes rest sub
  end.

Definition lowerChar (a : Ascii.ascii) : Ascii.ascii :=
  let n := Ascii.nat_of_ascii a in
  if ((65 <=? n) && (n <=? 90) ||
      (192 <=? n) && (n <=? 222) && negb (n =? 215))%nat
  then Ascii.ascii_of_nat (n + 32) else a.

(** [s.toLowerCase()] on code units below 256. *)
Fixpoint toLowerCase (s : string) : string :=
  match s with
  | EmptyString => EmptyString
  | String a rest => String (lowerChar a) (toLowerCase rest)
  end.

Definition isWhiteSpace (a : Ascii.ascii) : bool :=
  let n := Ascii.nat_of_ascii a in
  ((9 <=? n) && (n <=? 13) || (n =? 32) || (n =? 160))%nat.

Fixpoint trimStart (s : string) : string :=
  match s with
  | String a rest => if isWhiteSpace a then trimStart rest else s
  | EmptyString => EmptyString
  end.

Definition digitValue (a : Ascii.ascii) : option Z :=
  let n := Z.of_nat (Ascii.nat_of_ascii a) in
  if (48 <=? n) && (n <=? 57) then Some (n - 48)
  else if (97 <=? n) && (n <=? 122) then Some (n - 87)
  else if (65 <=? n) && (n <=? 90) then Some (n - 55)
  else None.

(** The longest prefix of digits of the radix; [None] when it is empty. *)
Fixpoint parseDigits (radix : Z) (acc : option Z) (s : string) : option Z :=
  match s with
  | EmptyString => acc
  | String a rest =>
      match digitValue a with
      | Some d =>
          if d <? radix
          then parseDigits radix (Some (default 0 acc * radix + d)) rest
          else acc
      | None => acc
      end
  end.

Definition stripSign (s : string) : Z * string :=
  match s with
  | String "-"%char rest => (-1, rest)
  | String "+"%char rest => (1, rest)
  | _ => (1, s)
  end.

Definition stripRadix (s : string) : Z * string :=
  match s with
  | String "0"%char (String "x"%char rest) => (16, rest)
  | String "0"%char (String "X"%char rest) => (16, rest)
  | _ => (10, s)
  end.

(** [parseInt(s)] without a radix argument; [None] is [NaN]. *)
Definition parseInt (s : string) : option Z :=
  let '(sign, s1) := stripSign (trimStart s) in
  let '(radix, s2) := stripRadix s1 in
  (fun n => sign * n) <$> parseDigits radix None s2.

End Str.

(** ** Road-surface condition of a waypoint (conditions tab of the route
    screen) *)
Module RoadSurface.
Import Str.

Record WeatherData := mkWeather {
  temperature : option Q;
  conditions : option string;
  wind_speed : option string;
  humidity : option Q
}.

Record WeatherAlert := mkAlert {
  event : string;
  headline : string;
  severity : string
}.

(** The [waypoint] field (position, name, distance) plays no part in the
    derivation and is left out. *)
Record WaypointWeather := mkWaypointWeather {
  weather : option WeatherData;
  alerts : list WeatherAlert
}.

Inductive Icon :=
  iconCheck | iconWarning | iconIce | iconSnowflake | iconSnowCloud
| iconFog | iconDroplet | iconThunder | iconWind.

(** [condDesc] is plain text or a template around a number. *)
Inductive Desc :=
| Text (s : string)
| DegreesF (prefix : string) (temp : Q)
| Mph (prefix : string) (windSpeed : option Z).

Record RoadCondition := mkRoadCondition {
  condIcon : Icon;
  condLabel : string;
  condColor : string;
  condDesc : Desc;
  roadSurface : string
}.

(** [wp.weather?.temperature || 50]: a missing snapshot, a [null]
    temperature and the temperature 0 all give 50. *)
Definition temp (wp : WaypointWeather) : Q :=
  match weather wp with
  | Some w =>
      match temperature w with
      | Some t => if Qeq_bool t 0 then 50%Q else t
      | None => 50%Q
      end
  | None => 50%Q
  end.

(** [(wp.weather?.conditions || '').toLowerCase()] *)
Definition conditionsText (wp : WaypointWeather) : string :=
  toLowerCase
    match weather wp with
    | Some w => default EmptyString (conditions w)
    | None => EmptyString
    end.

(** [wp.alerts.length > 0] *)
Definition hasAlert (wp : WaypointWeather) : bool :=
  (0 <? length (alerts wp))%nat.

(** [wp.weather?.wind_speed ? parseInt(wp.weather.wind_speed) : 0] *)
Definition windSpeed (wp : WaypointWeather) : option Z :=
  match weather wp with
  | Some w =>
      match wind_speed w with
      | Some s => if decide (s = EmptyString) then Some 0 else parseInt s
      | None => Some 0
      end
  | None => Some 0
  end.

(** [n > k] on a number that may be [NaN]. *)
Definition gt (n : option Z) (k : Z) : bool :=
  match n with
  | Some x => k <? x
  | None => false
  end.

(** [wp.alerts[0]?.event || 'Weather alert active'] *)
Definition alertDesc (wp : WaypointWeather) : string :=
  match alerts wp with
  | a :: _ =>
      if decide (event a = EmptyString) then "Weather alert active" else event a
  | [] => "Weather alert active"
  end.

(** The [if ... else if ...] chain of the conditions tab. *)
Definition roadCondition (wp : WaypointWeather) : RoadCondition :=
  let temp := temp wp in
  let conditions := conditionsText wp in
  let hasAlert := hasAlert wp in
  let windSpeed := windSpeed wp in
  if hasAlert then
    mkRoadCondition iconWarning "HAZARD" "#ef4444"
      (Text (alertDesc wp)) "Check conditions before driving"
  else if Qle_bool temp 32 &&
          (includes conditions "rain" || includes conditions "freezing"
           || includes conditions "drizzle") then
    mkRoadCondition iconIce "ICY" "#ef4444"
      (DegreesF "BLACK ICE LIKELY - " temp)
      "Roads may be ice-covered. Reduce speed significantly."
  else if Qle_bool temp 32 && includes conditions "snow" then
    mkRoadCondition iconSnowflake "SNOW" "#60a5fa"
      (DegreesF "SNOW-COVERED ROADS - " temp)
      "Snow accumulation on roadway. Use caution."
  else if negb (Qle_bool temp 32) && Qle_bool temp 40
          && includes conditions "snow" then
    mkRoadCondition iconSnowCloud "SLUSH" "#f59e0b"
      (DegreesF "SLUSHY CONDITIONS - " temp)
      "Wet, slushy roads. Reduced traction."
  else if includes conditions "fog" || includes conditions "mist" then
    mkRoadCondition iconFog "FOG" "#9ca3af"
      (Text "LIMITED VISIBILITY")
      "Use low beams. Increase following distance."
  else if includes conditions "rain" || includes conditions "shower"
          || includes conditions "drizzle" then
    mkRoadCondition iconDroplet "WET" "#3b82f6"
      (Text "WET ROADS") "Reduced traction. Watch for hydroplaning."
  else if includes conditions "thunder" || includes conditions "storm" then
    mkRoadCondition iconThunder "STORM" "#7c3aed"
      (Text "STORM CONDITIONS")
      "Heavy rain, possible flooding. Consider delaying."
  else if gt windSpeed 30 then
    mkRoadCondition iconWind "WINDY" "#f59e0b"
      (Mph "HIGH WINDS - " windSpeed)
      "Crosswinds may affect vehicle control."
  else
    mkRoadCondition iconCheck "DRY" "#22c55e"
      (Text "Roads clear and dry") "Normal driving conditions".

(** Modelled from the spec: the category enumeration and the severity
    attached to each category (sections 3 and 4.5).  The client code
    renders a label and a colour and carries no severity number; the
    severity table is that of the numbered rules of section 4.5. *)
Inductive Category :=
  dry | wet | icy | snow | slush | fog | storm | windy | hazard.

Definition severityOf (c : Category) : Z :=
  match c with
  | dry => 0
  | wet => 1
  | snow | slush | fog | windy => 2
  | icy | storm | hazard => 3
  end.

(** The category named by a rendered label. *)
Definition categoryOf (label : string) : option Category :=
  if decide (label = "HAZARD") then Some hazard
  else if decide (label = "ICY") then Some icy
  else if decide (label = "SNOW") then Some snow
  else if decide (label = "SLUSH") then Some slush
  else if decide (label = "FOG") then Some fog
  else if decide (label = "WET") then Some wet
  else if decide (label = "STORM") then Some storm
  else if decide (label = "WINDY") then Some windy
  else if decide (label = "DRY") then Some dry
  else None.

(** Modelled from the spec: rules 2 to 9 of section 4.5 as a table read
    top to bottom, the first matching rule giving the category.  A
    reading is what the rules look at: the temperature when the snapshot
    has one, the lower-cased conditions text and the wind speed.  The
    words that count as fog are a parameter of the table. *)
Record Reading := mkReading {
  readTemp : option Q;
  readText : string;
  readWind : option Z
}.

Definition tempLe (r : Reading) (k : Q) : bool :=
  match readTemp r with
  | Some t => Qle_bool t k
  | None => false
  end.

Definition tempGt (r : Reading) (k : Q) : bool :=
  match readTemp r with
  | Some t => negb (Qle_bool t k)
  | None => false
  end.

Definition mentions (r : Reading) (words : list string) : bool :=
  existsb (includes (readText r)) words.

Definition rulesWith (fogWords : list string)
    : list ((Reading -> bool) * Category) :=
  [ (fun r => tempLe r 32 && mentions r ["rain"; "freezing"; "drizzle"], icy);
    (fun r => tempLe r 32 && mentions r ["snow"], snow);
    (fun r => tempGt r 32 && tempLe r 40 && mentions r ["snow"], slush);
    (fun r => mentions r fogWords, fog);
    (fun r => mentions r ["rain"; "shower"; "drizzle"], wet);
    (fun r => mentions r ["thunder"; "storm"], storm);
    (fun r => gt (readWind r) 30, windy) ].

Definition firstMatch (rules : list ((Reading -> bool) * Category))
    (r : Reading) : Category :=
  match find (fun rule => fst rule r) rules with
  | Some rule => snd rule
  | None => dry
  end.

(** Section 4.5 as written: fog, mist and haze count as fog. *)
Definition classifySpec : Reading -> Category :=
  firstMatch (rulesWith ["fog"; "mist"; "haze"]).

(** The same table with fog and mist only. *)
Definition classifyFogMist : Reading -> Category :=
  firstMatch (rulesWith ["fog"; "mist"]).

(** The reading of a present snapshot. *)
Definition readingOf (w : WeatherData) : Reading :=
  mkReading (temperature w)
    (toLowerCase (default EmptyString (conditions w)))
    (windSpeed (mkWaypointWeather (Some w) [])).

End RoadSurface.

(** ** Premium status (utils/premium) *)
Module Premium.

Inductive Plan := monthly | yearly.

Record PremiumStatus := mkStatus {
  isPremium : bool;
  plan : option Plan;
  expiresAt : option string
}.

(** The device store: unreachable (every call rejects) or a map from
    keys to strings. *)
Inductive AsyncStorage :=
| Unavailable
| Store (items : gmap string string).

Definition PREMIUM_KEY : string := "routecast_premium_status".

(** [await AsyncStorage.getItem(key)]: [None] when the promise rejects,
    [Some None] for [null]. *)
Definition getItem (st : AsyncStorage) (key : string) : option (option string) :=
  match st with
  | Unavailable => None
  | Store items => Some (items !! key)
  end.

Definition notPremium : PremiumStatus := mkStatus false None None.

Section GetPremiumStatus.
(** [JSON.parse] read at type [PremiumStatus]; [None] when it throws or
    yields [null], on which reading [expiresAt] throws in turn. *)
Variable JSON_parse : string -> option PremiumStatus.
(** The time value of [new Date(s)] in milliseconds; [None] for an
    invalid date, whose time value is [NaN]. *)
Variable Date_parse : string -> option Z.

(** [expiryDate < new Date()]: false when the expiry date is invalid. *)
Definition before (expiry : option Z) (now : Z) : bool :=
  match expiry with
  | Some t => t <? now
  | None => false
  end.

(** [getPremiumStatus()], run against a store at the time [now]. *)
Definition getPremiumStatus (st : AsyncStorage) (now : Z) : PremiumStatus :=
  match getItem st PREMIUM_KEY with
  | None => notPremium
  | Some None => notPremium
  | Some (Some data) =>
      if decide (data = EmptyString) then notPremium
      else
        match JSON_parse data with
        | None => notPremium
        | Some status =>
            match expiresAt status with
            | Some e =>
                if decide (e = EmptyString) then status
                else if before (Date_parse e) now then notPremium
                else status
            | None => status
            end
        end
  end.

(** The stored status has expired at [now]. *)
Definition expired (status : PremiumStatus) (now : Z) : Prop :=
  exists e t,
    expiresAt status = Some e /\ e <> EmptyString /\
    Date_parse e = Some t /\ t < now.
End GetPremiumStatus.

End Premium.

(** ** Writing the premium status (utils/premium)

    Every call to the device store settles on its own: a write can be
    rejected while a later read is fulfilled. *)
Module PremiumCalls.
Import Premium.

(** How one call to the device store settles. *)
Inductive Settled := Fulfilled | Rejected.

(** [await AsyncStorage.setItem(key, value)] inside [try]: the stored
    items after the call.  A rejected call is caught and leaves them as
    they were. *)
Definition setItem (call : Settled) (items : gmap string string)
    (key value : string) : gmap string string :=
  match call with
  | Fulfilled => <[key := value]> items
  | Rejected => items
  end.

(** [await AsyncStorage.removeItem(key)] inside [try]. *)
Definition removeItem (call : Settled) (items : gmap string string)
    (key : string) : gmap string string :=
  match call with
  | Fulfilled => delete key items
  | Rejected => items
  end.

(** [setPremiumStatus(status)]; [JSON.stringify] at type [PremiumStatus]
    is an argument. *)
Definition setPremiumStatus (JSON_stringify : PremiumStatus -> string)
    (call : Settled) (items : gmap string string) (status : PremiumStatus)
    : gmap string string :=
  setItem call items PREMIUM_KEY (JSON_stringify status).

(** [clearPremiumStatus()] *)
Definition clearPremiumStatus (call : Settled) (items : gmap string string)
    : gmap string string :=
  removeItem call items PREMIUM_KEY.

(** The store a [getItem] call meets that settles as [call] on the stored
    items. *)
Definition readBy (call : Settled) (items : gmap string string)
    : AsyncStorage :=
  match call with
  | Fulfilled => Store items
  | Rejected => Unavailable
  end.

End PremiumCalls.

(** The writes on a store that takes every call or none: [Store items]
    fulfils each call, [Unavailable] rejects each. *)
Module PremiumWrites.
Import Premium.

Definition setPremiumStatus (JSON_stringify : PremiumStatus -> string)
    (st : AsyncStorage) (status : PremiumStatus) : AsyncStorage :=
  match st with
  | Unavailable => Unavailable
  | Store items =>
      Store (PremiumCalls.setPremiumStatus JSON_stringify
               PremiumCalls.Fulfilled items status)
  end.

Definition clearPremiumStatus (st : AsyncStorage) : AsyncStorage :=
  match st with
  | Unavailable => Unavailable
  | Store items =>
      Store (PremiumCalls.clearPremiumStatus PremiumCalls.Fulfilled items)
  end.

End PremiumWrites.

(** ** Distance of a decoded point from a position *)
Module PolylineMeasure.
Import Polyline.

(** [p] lies within [steps] times 2^30 units of [(lat, lng)] in each
    coordinate. *)
Definition near (lat lng : Z) (steps : Z) (p : LatLng) : Prop :=
  - 2 ^ 30 * steps <= latitude p - lat <= 2 ^ 30 * steps /\
  - 2 ^ 30 * steps <= longitude p - lng <= 2 ^ 30 * steps.

End PolylineMeasure.

(** ** The route map page (generateMapHtml of the route screens)

    [generateMapHtml] decodes the geometry and interpolates three points
    of it into a constant HTML template: the centre [routeCoords[
    Math.floor(routeCoords.length / 2)]], the start [routeCoords[0]] and
    the end [routeCoords[routeCoords.length - 1]], each read with
    [point[0]] and [point[1]], which throws a [TypeError] when the point is
    [undefined]; and one marker per waypoint with an alert, when markers
    are switched on.  The template text is left out. *)
Module RouteMapHtml.
Import Polyline.

Inductive Outcome (A : Type) :=
| Returns (a : A)
| Throws.
Arguments Returns {A} a.
Arguments Throws {A}.

Record MapParts (W : Type) := mkMapParts {
  center : LatLng;
  start : LatLng;
  finish : LatLng;
  routeCoordsJs : list LatLng;
  markers : list W
}.
Arguments mkMapParts {W} center start finish routeCoordsJs markers.

(** [showAlertMarkers && alertWaypoints.length > 0 ? alertWaypoints.map(...) : ''] *)
Definition alertMarkers {W} (hasAlerts : W -> bool) (showAlertMarkers : bool)
    (waypoints : list W) : list W :=
  let alertWaypoints := List.filter hasAlerts waypoints in
  if showAlertMarkers && (0 <? length alertWaypoints)%nat
  then alertWaypoints else [].

Definition mapParts {W} (hasAlerts : W -> bool) (routeCoords : list LatLng)
    (waypoints : list W) (showAlertMarkers : bool) : Outcome (MapParts W) :=
  let center := routeCoords !! (length routeCoords / 2)%nat in
  match routeCoords !! 0%nat,
        routeCoords !! (length routeCoords - 1)%nat, center with
  | Some start, Some finish, Some center =>
      Returns (mkMapParts center start finish routeCoords
                 (alertMarkers hasAlerts showAlertMarkers waypoints))
  | _, _, _ => Throws
  end.

(** [generateMapHtml(routeGeometry, waypoints, showAlertMarkers)]; [None]
    only when the decoder's budget runs out. *)
Definition generateMapHtml {W} (hasAlerts : W -> bool) (routeGeometry : list Z)
    (waypoints : list W) (showAlertMarkers : bool)
    : option (Outcome (MapParts W)) :=
  (fun routeCoords => mapParts hasAlerts routeCoords waypoints showAlertMarkers)
    <$> decodePolyline routeGeometry.

End RouteMapHtml.

(** ** Ends of strings *)
Module StrEnds.
Import Str.

Definition chars (s : string) : list ascii := String.list_ascii_of_string s.
Definition ofChars (l : list ascii) : string := String.string_of_list_ascii l.

Fixpoint dropSpace (l : list ascii) : list ascii :=
  match l with
  | a :: rest => if isWhiteSpace a then dropSpace rest else l
  | [] => []
  end.

(** The list is empty or starts with a character that is not white
    space. *)
Definition startsClean (l : list ascii) : Prop :=
  match l with
  | [] => True
  | a :: _ => isWhiteSpace a = false
  end.

(** [s.trim()] on code units below 256: white space and line terminators
    are removed at both ends. *)
Definition trim (s : string) : string :=
  ofChars (reverse (dropSpace (reverse (dropSpace (chars s))))).

(** [s || d] on strings: the empty string is falsy. *)
Definition orElse (s d : string) : string :=
  if decide (s = EmptyString) then d else s.

(** [parts.join(sep)] *)
Definition join (sep : string) (parts : list string) : string :=
  String.concat sep parts.

End StrEnds.

(** ** Recent and favourite routes of the home screen (frontend/app/index.tsx) *)
Module Home.
Import StrEnds.

Record StopPoint := mkStop { location : string; type : string }.

Record SavedRoute := mkSavedRoute {
  id : string;
  origin : string;
  destination : string;
  stops : list StopPoint;
  createdAt : string;
  isFavorite : option bool;
  favoriteName : option string
}.

(** [{ location: (s.location || "").trim(),
       type: (s.type || "stop").trim() || "stop" }] *)
Definition cleanStop (s : StopPoint) : StopPoint :=
  mkStop (trim (orElse (location s) EmptyString))
         (orElse (trim (orElse (type s) "stop")) "stop").

(** A stop whose location and type are non-empty and trimmed. *)
Definition cleanStopShape (s : StopPoint) : Prop :=
  location s <> EmptyString /\ trim (location s) = location s /\
  type s <> EmptyString /\ trim (type s) = type s.

(** [stops.map(...).filter((s) => s.location.length > 0)] *)
Definition cleanedStops (stops : list StopPoint) : list StopPoint :=
  List.filter (fun s => (0 <? String.length (location s))%nat) (map cleanStop stops).

(** [buildDraft()]; the results of [makeId()] and [nowISO()] are
    arguments. *)
Definition buildDraft (newId now origin destination : string)
    (stops : list StopPoint) : SavedRoute :=
  mkSavedRoute newId (trim origin) (trim destination) (cleanedStops stops)
    now None None.

(** [onCheckRoute]: the list of recent routes after the call.  With a
    blank origin or destination an alert is shown and nothing is saved;
    otherwise [uniqById([draft, ...recents]).slice(0, 10)] is saved. *)
Definition onCheckRoute (newId now origin destination : string)
    (stops : list StopPoint) (recents : list SavedRoute) : list SavedRoute :=
  let o := trim origin in
  let d := trim destination in
  if bool_decide (o = EmptyString) || bool_decide (d = EmptyString) then recents
  else
    let draft := buildDraft newId now origin destination stops in
    take 10 (Alerts.uniqById id (draft :: recents)).

(** The signature
    [`${o}__${d}__${stops.map((s) => (s.location || "").trim())
                         .filter(Boolean).join("|")}`]. *)
Definition signatureId (origin destination : string) (stops : list StopPoint)
    : string :=
  trim origin +:+ "__" +:+ trim destination +:+ "__"
  +:+ join "|"
        (List.filter (fun s => negb (bool_decide (s = EmptyString)))
           (map (fun s => trim (orElse (location s) EmptyString)) stops)).

Definition newFavorite (now origin destination : string)
    (stops : list StopPoint) : SavedRoute :=
  mkSavedRoute (signatureId origin destination stops) (trim origin)
    (trim destination) (cleanedStops stops) now (Some true) None.

(** [onToggleFavoriteCurrent]: the list of favourites after the call. *)
Definition onToggleFavoriteCurrent (now origin destination : string)
    (stops : list StopPoint) (favorites : list SavedRoute) : list SavedRoute :=
  let o := trim origin in
  let d := trim destination in
  if bool_decide (o = EmptyString) || bool_decide (d = EmptyString) then favorites
  else
    let signatureId := signatureId origin destination stops in
    let exists_ := existsb (fun f => String.eqb (id f) signatureId) favorites in
    if exists_ then
      List.filter (fun f => negb (String.eqb (id f) signatureId)) favorites
    else
      take 25 (Alerts.uniqById id (newFavorite now origin destination stops :: favorites)).

End Home.

(** ** Durations (formatDuration of the route screens)

    The argument is a whole number of minutes. *)
Module Durations.
Import StrEnds.

(** The route conditions screen (unnamed/part_002), on whole minutes:
    [hours = Math.floor(minutes / 60)], [mins = minutes % 60]. *)
Definition formatDuration (minutes : Z) : string :=
  let hours := minutes / 60 in
  let mins := Z.rem minutes 60 in
  if hours =? 0 then pretty mins +:+ " min"
  else if 0 <? mins then pretty hours +:+ "h " +:+ pretty mins +:+ "m"
  else pretty hours +:+ "h".

Definition isDigit (a : ascii) : bool :=
  let n := nat_of_ascii a in ((48 <=? n) && (n <=? 57))%nat.

End Durations.

(** ** Durations on the route screen (frontend/app/route.tsx)

    The screen passes [total_duration_minutes] or, without it,
    [totalDistance / 55 * 60]: the minutes are a finite number with a
    fraction, taken here as an exact rational. *)
Module RouteDurations.

(** [Math.floor] *)
Definition Math_floor (x : Q) : Z := Qfloor x.

(** [Math.round]: the nearest integer, a tie going up. *)
Definition Math_round (x : Q) : Z := Qfloor (x + (1 # 2)).

(** The quotient rounded towards zero. *)
Definition Math_trunc (x : Q) : Z :=
  if Qle_bool 0 x then Qfloor x else Qceiling x.

(** [x % y]: the remainder takes the sign of [x]. *)
Definition remainder (x y : Q) : Q :=
  (x - y * inject_Z (Math_trunc (x / y)))%Q.

(** [formatDuration(minutes)]:
    [hours = Math.floor(minutes / 60)], [mins = Math.round(minutes % 60)],
    [`${hours}h ${mins}m`]. *)
Definition formatDuration (minutes : Q) : string :=
  let hours := Math_floor (minutes / 60) in
  let mins := Math_round (remainder minutes 60) in
  pretty hours +:+ "h " +:+ pretty mins +:+ "m".

End RouteDurations.

(** ** The local route store of the home screen with favourites
      (readStore, writeStore and the three local updates)

    [readStore] yields a store, the empty one when nothing readable is
    saved; each update computes the next store from it and hands it to
    [writeStore].  The updates are modelled on the store read. *)
Module RouteStore.
Import Str StrEnds.

Inductive StopType := stop | gas | food | rest.

Record StopPoint := mkStop { location : string; type : StopType }.

Record SavedRoute := mkSavedRoute {
  id : option string;
  _id : option string;
  route_id : option string;
  origin : string;
  destination : string;
  stops : option (list StopPoint);
  is_favorite : option bool;
  created_at : option string
}.

Record Store := mkStore {
  favorites : list SavedRoute;
  recents : list SavedRoute
}.

(** [(s || '').trim().toLowerCase()] *)
Definition norm (s : string) : string :=
  toLowerCase (trim (orElse s EmptyString)).

(** [norm(a.origin) === norm(b.origin) &&
     norm(a.destination) === norm(b.destination)] *)
Definition sameRoute (a b : SavedRoute) : bool :=
  String.eqb (norm (origin a)) (norm (origin b))
  && String.eqb (norm (destination a)) (norm (destination b)).

(** [upsertRecentLocal]:
    [[route, ...store.recents.filter((r) => !sameRoute(r, route))].slice(0, 10)] *)
Definition upsertRecentLocal (store : Store) (route : SavedRoute) : Store :=
  mkStore (favorites store)
    (take 10 (route :: List.filter (fun r => negb (sameRoute r route)) (recents store))).

(** [addFavoriteLocal] *)
Definition addFavoriteLocal (store : Store) (route : SavedRoute) : Store :=
  let exists_ := existsb (fun r => sameRoute r route) (favorites store) in
  mkStore (if exists_ then favorites store else route :: favorites store)
    (recents store).

(** [removeFavoriteLocal] *)
Definition removeFavoriteLocal (store : Store) (route : SavedRoute) : Store :=
  mkStore (List.filter (fun r => negb (sameRoute r route)) (favorites store))
    (recents store).

(** What [sameRoute] compares. *)
Definition routeKey (r : SavedRoute) : string * string :=
  (norm (origin r), norm (destination r)).

(** No two routes of the list are the same route. *)
Definition distinctRoutes (l : list SavedRoute) : Prop :=
  NoDup (routeKey <$> l).

End RouteStore.

(** ** The API root of the results screen (normalizeApiRoot) *)
Module ApiRoot.
Import Str StrEnds.

(** [s.endsWith(suffix)] *)
Definition endsWith (s suffix : string) : bool :=
  bool_decide (chars suffix `suffix_of` chars s).

(** Leading slashes of a list of characters dropped. *)
Fixpoint dropSlashes (l : list ascii) : list ascii :=
  match l with
  | a :: rest => if Ascii.eqb a "/" then dropSlashes rest else l
  | [] => []
  end.

(** [while (s.endsWith("/")) s = s.slice(0, -1)]: the slashes at the end
    are removed, read off the reversed string. *)
Definition stripSlashes (s : string) : string :=
  ofChars (reverse (dropSlashes (reverse (chars s)))).

Definition defaultRoot : string := "http://10.0.2.2:8000/api".

Definition apiChars : list ascii := chars "/api".

(** The shape of a result: no white space in front, "/api" in any letter
    case at the end. *)
Definition normalShape (l : list ascii) : Prop :=
  startsClean l /\ apiChars `suffix_of` map lowerChar l.

(** [normalizeApiRoot(raw)] *)
Definition normalizeApiRoot (raw : string) : string :=
  let s := trim (orElse raw EmptyString) in
  if decide (s = EmptyString) then defaultRoot
  else
    let s := stripSlashes s in
    if negb (endsWith (toLowerCase s) "/api") then s +:+ "/api" else s.

End ApiRoot.

(** ** Editing the stops of the home screen (frontend/app/index.tsx) *)
Module StopsEditor.
Import Home.

(** [Partial<StopPoint>]: the keys present in a patch. *)
Record StopPatch := mkPatch {
  patchLocation : option string;
  patchType : option string
}.

(** [{ ...s, ...patch }] *)
Definition applyPatch (s : StopPoint) (patch : StopPatch) : StopPoint :=
  mkStop (default (location s) (patchLocation patch))
         (default (type s) (patchType patch)).

(** [Array.prototype.map] with the callback [(element, index)]. *)
Fixpoint mapFrom {A B} (f : A -> Z -> B) (i : Z) (l : list A) : list B :=
  match l with
  | [] => []
  | a :: rest => f a i :: mapFrom f (i + 1) rest
  end.

(** [onAddStop]: [[...prev, { location: "", type: "stop" }]] *)
Definition onAddStop (prev : list StopPoint) : list StopPoint :=
  prev ++ [mkStop EmptyString "stop"].

(** [updateStop(idx, patch)]:
    [prev.map((s, i) => (i === idx ? { ...s, ...patch } : s))] *)
Definition updateStop (idx : Z) (patch : StopPatch) (prev : list StopPoint)
    : list StopPoint :=
  mapFrom (fun s i => if i =? idx then applyPatch s patch else s) 0 prev.

(** [removeStop(idx)]: [prev.filter((_, i) => i !== idx)] *)
Definition removeStop (idx : Z) (prev : list StopPoint) : list StopPoint :=
  Alerts.filterFrom (fun _ i => negb (i =? idx)) 0 prev.

End StopsEditor.

(** * Properties *)

(** ** 32-bit arithmetic *)
Section Int32.

Lemma wrap32_small z : - 2 ^ 31 <= z < 2 ^ 31 -> JS.wrap32 z = z.
Proof.
  intros Hz. unfold JS.wrap32.
  rewrite Z.mod_small; lia.
Qed.

Lemma land_disjoint r m s :
  0 <= s -> 0 <= r < 2 ^ s -> Z.land r (Z.shiftl m s) = 0.
Proof.
  intros Hs Hr. apply Z.bits_inj'. intros i Hi.
  rewrite Z.land_spec, Z.bits_0.
  destruct (Z.lt_ge_cases i s) as [Hlt | Hge].
  - rewrite Z.shiftl_spec_low by lia. apply andb_false_r.
  - destruct (Z.eq_dec r 0) as [-> | Hr0].
    + rewrite Z.bits_0. reflexivity.
    + rewrite (Z.bits_above_log2 r i); [reflexivity | lia |].
      apply Z.le_lt_trans with (m := Z.log2 (2 ^ s - 1)).
      * apply Z.log2_le_mono. lia.
      * destruct (Z.eq_dec s 0) as [-> | Hs0]; [simpl in Hr; lia |].
        assert (Z.log2 (2 ^ s - 1) < s); [| lia].
        apply Z.log2_lt_pow2; lia.
Qed.

Lemma lor_disjoint r m s :
  0 <= s -> 0 <= r < 2 ^ s -> Z.lor r (Z.shiftl m s) = r + m * 2 ^ s.
Proof.
  intros Hs Hr.
  rewrite <- Z.lxor_lor by (apply land_disjoint; assumption).
  rewrite <- Z.add_nocarry_lxor by (apply land_disjoint; assumption).
  rewrite Z.shiftl_mul_pow2 by assumption. reflexivity.
Qed.

End Int32.

(** ** Polyline: decoding what the encoder wrote *)
Section PolylineRoundTrip.
Import Polyline.

Lemma land_31 v : Z.land v 31 = v mod 32.
Proof. change 31 with (Z.ones 5). rewrite Z.land_ones by lia. reflexivity. Qed.

Lemma zigzag_range d :
  - 2 ^ 30 <= d < 2 ^ 30 ->
  zigzag d = (if d <? 0 then - 2 * d - 1 else 2 * d) /\ 0 <= zigzag d < 2 ^ 31.
Proof.
  intros Hd. unfold zigzag.
  rewrite Z.shiftl_mul_pow2 by lia. change (2 ^ 1) with 2.
  destruct (d <? 0) eqn:E.
  - apply Z.ltb_lt in E. unfold Z.lnot. split; lia.
  - apply Z.ltb_ge in E. split; lia.
Qed.

Lemma unzigzag_zigzag d : - 2 ^ 30 <= d < 2 ^ 30 -> unzigzag (zigzag d) = d.
Proof.
  intros Hd. destruct (zigzag_range d Hd) as [Hz Hr].
  unfold unzigzag, JS.and, JS.sar, JS.not, JS.ToInt32.
  rewrite !wrap32_small by lia.
  change (1 mod 32) with 1.
  change 1 with (Z.ones 1) at 1. rewrite Z.land_ones by lia.
  rewrite Z.shiftr_div_pow2 by lia. change (2 ^ 1) with 2.
  rewrite Hz. destruct (d <? 0) eqn:E.
  - apply Z.ltb_lt in E.
    replace ((- 2 * d - 1) mod 2) with 1 by (apply (Z.mod_unique _ _ (- d - 1)); lia).
    simpl (1 =? 0).
    replace ((- 2 * d - 1) / 2) with (- d - 1) by (apply (Z.div_unique _ _ _ 1); lia).
    rewrite wrap32_small by lia. unfold Z.lnot. lia.
  - apply Z.ltb_ge in E.
    replace ((2 * d) mod 2) with 0 by (apply (Z.mod_unique _ _ d); lia).
    simpl (0 =? 0).
    symmetry. apply (Z.div_unique _ _ _ 0); lia.
Qed.

Lemma drop_cons_inv {A} (l : list A) i x t :
  drop i l = x :: t -> l !! i = Some x /\ drop (S i) l = t.
Proof.
  intros H. split.
  - replace i with (i + 0)%nat by lia. rewrite <- lookup_drop, H. reflexivity.
  - replace (S i) with (i + 1)%nat by lia. rewrite <- drop_drop, H. reflexivity.
Qed.

Lemma readGroup_step encoded index c fuel shift r :
  encoded !! index = Some c ->
  readGroup (S fuel) encoded index shift r =
    let result :=
      JS.or (Some r)
        (Some (JS.shl (Some (JS.and (Some (c - 63)) (Some 31))) (Some shift))) in
    if 32 <=? c - 63
    then readGroup fuel encoded (S index) (shift + 5) result
    else Some (result, S index).
Proof. intros H. simpl. unfold JS.charCodeAt. rewrite H. reflexivity. Qed.

Lemma group_accumulate byte shift r :
  0 <= byte < 64 -> 0 <= shift <= 30 -> 0 <= r < 2 ^ shift ->
  r + (byte mod 32) * 2 ^ shift < 2 ^ 31 ->
  JS.or (Some r)
    (Some (JS.shl (Some (JS.and (Some byte) (Some 31))) (Some shift)))
  = r + (byte mod 32) * 2 ^ shift.
Proof.
  intros Hb Hs Hr Hsum.
  assert (Hm : 0 <= byte mod 32 < 32) by (apply Z.mod_pos_bound; lia).
  assert (HP : 0 < 2 ^ shift) by (apply Z.pow_pos_nonneg; lia).
  assert (Hprod : 0 <= byte mod 32 * 2 ^ shift) by nia.
  unfold JS.or, JS.shl, JS.and, JS.ToInt32.
  rewrite (wrap32_small byte), (wrap32_small 31), (wrap32_small shift),
    (wrap32_small r) by lia.
  rewrite land_31, (wrap32_small (byte mod 32)) by lia.
  rewrite (Z.mod_small shift 32) by lia.
  assert (Hsh : Z.shiftl (byte mod 32) shift = byte mod 32 * 2 ^ shift)
    by (apply Z.shiftl_mul_pow2; lia).
  rewrite !(wrap32_small (Z.shiftl (byte mod 32) shift)) by (rewrite Hsh; lia).
  rewrite lor_disjoint by lia. reflexivity.
Qed.

Lemma readGroup_encodeGroups n :
  forall v encoded index shift r fuel post,
    0 <= v < 32 ^ Z.of_nat (S n) -> 0 <= shift <= 30 ->
    0 <= r < 2 ^ shift -> r + v * 2 ^ shift < 2 ^ 31 ->
    drop index encoded = encodeGroups (S n) v ++ post ->
    (length (encodeGroups (S n) v) <= fuel)%nat ->
    readGroup fuel encoded index shift r
    = Some (r + v * 2 ^ shift, (index + length (encodeGroups (S n) v))%nat).
Proof.
  induction n as [| n IH]; intros v encoded index shift r fuel post Hv Hs Hr Hsum Hdrop Hfuel.
  - change (32 ^ Z.of_nat 1) with 32 in Hv.
    simpl in Hdrop, Hfuel |- *.
    destruct (32 <=? v) eqn:E; [apply Z.leb_le in E; lia |].
    simpl in Hdrop, Hfuel |- *.
    destruct (drop_cons_inv _ _ _ _ Hdrop) as [Hc _].
    destruct fuel as [| fuel]; [lia |].
    rewrite (readGroup_step _ _ _ _ _ _ Hc). cbv zeta.
    replace (v + 63 - 63) with v by lia. rewrite E.
    rewrite group_accumulate; rewrite ?(Z.mod_small v 32); try lia.
    f_equal. f_equal. lia.
  - assert (HP : 0 < 2 ^ shift) by (apply Z.pow_pos_nonneg; lia).
    remember (S n) as n1 eqn:Hn1.
    cbn [encodeGroups] in Hdrop, Hfuel |- *.
    destruct (32 <=? v) eqn:E.
    + apply Z.leb_le in E.
      rewrite Z.shiftr_div_pow2 in * by lia. change (2 ^ 5) with 32 in *.
      rewrite land_31 in *.
      pose proof (Z.div_mod v 32 ltac:(lia)) as Hdm.
      pose proof (Z.mod_pos_bound v 32 ltac:(lia)) as Hm.
      set (q := v / 32) in *. set (m := v mod 32) in *.
      assert (Hq : 1 <= q) by lia.
      assert (Hlor : Z.lor 32 m = 32 + m).
      { change 32 with (Z.shiftl 1 5) at 1. rewrite Z.lor_comm.
        rewrite lor_disjoint by (change (2 ^ 5) with 32; lia). change (2 ^ 5) with 32. lia. }
      rewrite Hlor in *.
      simpl in Hdrop, Hfuel |- *.
      destruct (drop_cons_inv _ _ _ _ Hdrop) as [Hc Hrest].
      destruct fuel as [| fuel]; [lia |].
      rewrite (readGroup_step _ _ _ _ _ _ Hc). cbv zeta.
      replace (32 + m + 63 - 63) with (32 + m) by lia.
      replace (32 <=? 32 + m) with true by (symmetry; apply Z.leb_le; lia).
      assert (Hshift : shift + 5 <= 30).
      { assert (2 ^ (shift + 5) < 2 ^ 31); [| apply Z.pow_lt_mono_r_iff in H; lia].
        rewrite Z.pow_add_r by lia. change (2 ^ 5) with 32. nia. }
      assert (Hmod : (32 + m) mod 32 = m).
      { symmetry. apply (Z.mod_unique _ _ 1); lia. }
      rewrite group_accumulate; rewrite ?Hmod; try lia; try nia.
      assert (Hpow : 2 ^ (shift + 5) = 32 * 2 ^ shift).
      { rewrite Z.pow_add_r by lia. change (2 ^ 5) with 32. lia. }
      rewrite (IH q encoded (S index) (shift + 5) (r + m * 2 ^ shift) fuel post);
        rewrite ?Hpow; try lia; try nia; try assumption.
      * f_equal. f_equal; [nia | lia].
      * subst n1. rewrite Nat2Z.inj_succ, Z.pow_succ_r in Hv by lia.
        split; [lia |]. apply Z.div_lt_upper_bound; lia.
    + simpl in Hdrop, Hfuel |- *. apply Z.leb_gt in E.
      destruct (drop_cons_inv _ _ _ _ Hdrop) as [Hc _].
      destruct fuel as [| fuel]; [lia |].
      rewrite (readGroup_step _ _ _ _ _ _ Hc). cbv zeta.
      replace (v + 63 - 63) with v by lia.
      replace (32 <=? v) with false by (symmetry; apply Z.leb_gt; lia).
      rewrite group_accumulate; rewrite ?(Z.mod_small v 32); try lia.
      f_equal. f_equal. lia.
Qed.

Lemma encodeGroups_length n v :
  (1 <= length (encodeGroups (S n) v) <= S n)%nat.
Proof.
  revert v. induction n as [| n IH]; intros v.
  - simpl. destruct (32 <=? v); simpl; lia.
  - specialize (IH (Z.shiftr v 5)). remember (S n) as n1.
    cbn [encodeGroups]. destruct (32 <=? v); cbn [length]; lia.
Qed.

Lemma encodeFrom_length pts : forall lat lng,
  (2 * length pts <= length (encodeFrom lat lng pts))%nat.
Proof.
  induction pts as [| p pts IH]; intros lat lng; simpl; [lia |].
  rewrite !length_app. specialize (IH (latitude p) (longitude p)).
  pose proof (encodeGroups_length 6 (zigzag (latitude p - lat))).
  pose proof (encodeGroups_length 6 (zigzag (longitude p - lng))).
  unfold encodeSigned. lia.
Qed.

(** One signed value written by the encoder is read back by the group
    loop, starting from [shift = 0] and [result = 0]. *)
Lemma readGroup_encodeSigned d encoded index fuel post :
  - 2 ^ 30 <= d < 2 ^ 30 ->
  drop index encoded = encodeSigned d ++ post ->
  (length (encodeSigned d) <= fuel)%nat ->
  readGroup fuel encoded index 0 0
  = Some (zigzag d, (index + length (encodeSigned d))%nat).
Proof.
  intros Hd Hdrop Hfuel. destruct (zigzag_range d Hd) as [_ Hz].
  unfold encodeSigned in *.
  rewrite (readGroup_encodeGroups 6 (zigzag d) encoded index 0 0 fuel post);
    try assumption; try (change (2 ^ 0) with 1; lia).
  f_equal. f_equal. change (2 ^ 0) with 1. lia.
Qed.

Lemma lastOr_cons lat lng p pts :
  lastOr lat lng (p :: pts) = lastOr (latitude p) (longitude p) pts.
Proof.
  unfold lastOr. destruct pts as [| q pts]; [destruct p; reflexivity |].
  rewrite last_cons. destruct (last (q :: pts)) eqn:E; [reflexivity |].
  apply last_None in E. discriminate.
Qed.

(** The outer loop consumes the encoding of a list of valid points and
    continues behind it, at the last point. *)
Lemma decodeLoop_encodeFrom pts :
  forall encoded index lat lng acc fuel tail,
    Forall validPoint pts -> inBounds lat lng ->
    drop index encoded = encodeFrom lat lng pts ++ tail ->
    (length encoded - index < fuel)%nat ->
    decodeLoop fuel encoded index lat lng acc
    = decodeLoop (fuel - length pts) encoded
        (index + length (encodeFrom lat lng pts))
        (latitude (lastOr lat lng pts)) (longitude (lastOr lat lng pts))
        (acc ++ pts).
Proof.
  induction pts as [| p pts IH];
    intros encoded index lat lng acc fuel tail Hvalid Hb Hdrop Hfuel.
  - simpl. rewrite Nat.sub_0_r, Nat.add_0_r, app_nil_r. reflexivity.
  - apply Forall_cons in Hvalid as [Hp Hvalid].
    destruct Hb as [Hlat Hlng]. destruct Hp as [Hplat Hplng]. simpl in Hlat, Hlng.
    cbn [encodeFrom] in Hdrop |- *.
    set (g1 := encodeSigned (latitude p - lat)) in *.
    set (g2 := encodeSigned (longitude p - lng)) in *.
    set (rest := encodeFrom (latitude p) (longitude p) pts) in *.
    assert (Hlen : length (drop index encoded)
                   = (length g1 + length g2 + length rest + length tail)%nat).
    { rewrite Hdrop, !length_app. lia. }
    rewrite length_drop in Hlen.
    pose proof (encodeGroups_length 6 (zigzag (latitude p - lat))) as Hg1.
    pose proof (encodeGroups_length 6 (zigzag (longitude p - lng))) as Hg2.
    fold (encodeSigned (latitude p - lat)) in Hg1. fold g1 in Hg1.
    fold (encodeSigned (longitude p - lng)) in Hg2. fold g2 in Hg2.
    destruct fuel as [| fuel]; [lia |].
    cbn [decodeLoop].
    replace (index <? length encoded)%nat with true
      by (symmetry; apply Nat.ltb_lt; lia).
    rewrite (readGroup_encodeSigned (latitude p - lat) encoded index (S fuel)
               (g2 ++ rest ++ tail));
      [| lia | rewrite Hdrop, <- !app_assoc; reflexivity | fold g1; lia].
    fold g1.
    rewrite (readGroup_encodeSigned (longitude p - lng) encoded
               (index + length g1) (S fuel) (rest ++ tail));
      [| lia | | fold g2; lia].
    2:{ rewrite <- drop_drop, Hdrop, <- !app_assoc, drop_app_length. reflexivity. }
    fold g2. cbv zeta.
    rewrite !unzigzag_zigzag by lia.
    replace (lat + (latitude p - lat)) with (latitude p) by lia.
    replace (lng + (longitude p - lng)) with (longitude p) by lia.
    replace (mkLatLng (latitude p) (longitude p)) with p by (destruct p; reflexivity).
    rewrite (IH encoded (index + length g1 + length g2)%nat (latitude p)
               (longitude p) (acc ++ [p]) fuel tail); try assumption.
    + fold rest. rewrite lastOr_cons, <- app_assoc, !length_app. cbn [length app].
      replace (S fuel - S (length pts))%nat with (fuel - length pts)%nat by lia.
      f_equal. lia.
    + split; assumption.
    + rewrite <- !drop_drop, Hdrop, <- !app_assoc, drop_app_length.
      replace (g2 ++ rest ++ tail) with (g2 ++ (rest ++ tail)) by reflexivity.
      rewrite drop_app_length. reflexivity.
    + lia.
Qed.

Lemma inBounds_origin : inBounds 0 0.
Proof. unfold inBounds, validPoint. simpl. lia. Qed.

Lemma decodePolyline_encode pts :
  Forall validPoint pts -> decodePolyline (encode pts) = Some pts.
Proof.
  intros Hvalid. unfold decodePolyline, encode.
  rewrite (decodeLoop_encodeFrom pts (encodeFrom 0 0 pts) 0 0 0 [] _ []
             Hvalid inBounds_origin);
    [| rewrite app_nil_r; reflexivity | lia].
  pose proof (encodeFrom_length pts 0 0) as Hlen.
  destruct (length (encodeFrom 0 0 pts) + 2 - length pts)%nat as [| fuel] eqn:E;
    [lia |].
  cbn [decodeLoop]. rewrite Nat.add_0_l, Nat.ltb_irrefl. reflexivity.
Qed.

End PolylineRoundTrip.

(** ** Polyline: the decoder on arbitrary and on truncated input *)
Section PolylineTotal.
Import Polyline.

(** A read past the end of the string yields [NaN]: it adds no bits and
    leaves the group loop. *)
Lemma readGroup_past_end fuel encoded index shift r :
  (length encoded <= index)%nat ->
  readGroup (S fuel) encoded index shift r = Some (JS.wrap32 r, S index).
Proof.
  intros Hlen. cbn [readGroup]. unfold JS.charCodeAt.
  rewrite (lookup_ge_None_2 encoded index) by assumption.
  cbn [JS.sub fmap option_fmap option_map JS.ge].
  unfold JS.or, JS.shl, JS.and. cbn [JS.ToInt32].
  rewrite Z.land_0_l. change (JS.wrap32 0) with 0.
  rewrite Z.shiftl_0_l. change (JS.wrap32 0) with 0.
  rewrite Z.lor_0_r. reflexivity.
Qed.

Lemma readGroup_total fuel :
  forall encoded index shift r,
    (length encoded - index < fuel)%nat ->
    exists res idx,
      readGroup fuel encoded index shift r = Some (res, idx) /\
      (index < idx)%nat.
Proof.
  induction fuel as [| fuel IH]; intros encoded index shift r Hfuel; [lia |].
  destruct (encoded !! index) as [c |] eqn:Hc.
  - rewrite (readGroup_step _ _ _ _ _ _ Hc). cbv zeta.
    apply lookup_lt_Some in Hc.
    destruct (32 <=? c - 63).
    + edestruct (IH encoded (S index)) as (res & idx & Hres & Hidx); [lia |].
      exists res, idx. split; [exact Hres | lia].
    + eexists _, _. split; [reflexivity | lia].
  - apply lookup_ge_None_1 in Hc.
    rewrite readGroup_past_end by assumption.
    eexists _, _. split; [reflexivity | lia].
Qed.

Lemma decodeLoop_total fuel :
  forall encoded index lat lng acc,
    (length encoded - index < fuel)%nat ->
    exists pts,
      decodeLoop fuel encoded index lat lng acc = Some (acc ++ pts) /\
      ((index < length encoded)%nat -> pts <> []).
Proof.
  induction fuel as [| fuel IH]; intros encoded index lat lng acc Hfuel; [lia |].
  cbn [decodeLoop].
  destruct (index <? length encoded)%nat eqn:E.
  - apply Nat.ltb_lt in E.
    destruct (readGroup_total (S fuel) encoded index 0 0 Hfuel)
      as (r1 & i1 & H1 & Hi1).
    rewrite H1.
    destruct (readGroup_total (S fuel) encoded i1 0 0 ltac:(lia))
      as (r2 & i2 & H2 & Hi2).
    rewrite H2. cbv zeta.
    edestruct (IH encoded i2) as (pts & Hpts & _); [lia |].
    rewrite Hpts, <- app_assoc.
    eexists. split; [reflexivity |]. intros _. discriminate.
  - apply Nat.ltb_ge in E. exists []. rewrite app_nil_r.
    split; [reflexivity | lia].
Qed.

Lemma readGroup_mono fuel :
  forall fuel' encoded index shift r x,
    readGroup fuel encoded index shift r = Some x ->
    (fuel <= fuel')%nat ->
    readGroup fuel' encoded index shift r = Some x.
Proof.
  induction fuel as [| fuel IH]; intros fuel' encoded index shift r x H Hle;
    [discriminate |].
  destruct fuel' as [| fuel']; [lia |].
  cbn [readGroup] in H |- *.
  destruct (JS.ge _ _); [| exact H].
  apply IH; [exact H | lia].
Qed.

Lemma decodeLoop_mono fuel :
  forall fuel' encoded index lat lng acc pts,
    decodeLoop fuel encoded index lat lng acc = Some pts ->
    (fuel <= fuel')%nat ->
    decodeLoop fuel' encoded index lat lng acc = Some pts.
Proof.
  induction fuel as [| fuel IH]; intros fuel' encoded index lat lng acc pts H Hle;
    [discriminate |].
  destruct fuel' as [| fuel']; [lia |].
  cbn [decodeLoop] in H |- *.
  destruct (index <? length encoded)%nat; [| exact H].
  destruct (readGroup (S fuel) encoded index 0 0) as [[r1 i1] |] eqn:H1;
    [| discriminate].
  rewrite (readGroup_mono _ (S fuel') _ _ _ _ _ H1) by lia.
  destruct (readGroup (S fuel) encoded i1 0 0) as [[r2 i2] |] eqn:H2;
    [| discriminate].
  rewrite (readGroup_mono _ (S fuel') _ _ _ _ _ H2) by lia.
  cbv zeta in H |- *. apply IH; [exact H | lia].
Qed.

Lemma decodePolyline_returns encoded :
  exists pts,
    decodePolyline encoded = Some pts /\ (encoded <> [] -> pts <> []).
Proof.
  unfold decodePolyline.
  destruct (decodeLoop_total (length encoded + 2) encoded 0 0 0 [] ltac:(lia))
    as (pts & Hpts & Hne).
  exists pts. split; [exact Hpts |].
  intros Hnil. apply Hne. destruct encoded; [congruence | simpl; lia].
Qed.

(** An odd number of groups: the encoding of valid points followed by a
    single latitude group.  The absent longitude group is read as delta 0
    and one more point is pushed. *)
Lemma decodePolyline_odd_groups pts d :
  Forall validPoint pts -> - 2 ^ 30 <= d < 2 ^ 30 ->
  decodePolyline (encode pts ++ encodeSigned d)
  = Some (pts ++ [mkLatLng (latitude (lastOr 0 0 pts) + d)
                           (longitude (lastOr 0 0 pts))]).
Proof.
  intros Hvalid Hd. unfold decodePolyline, encode.
  set (e := encodeFrom 0 0 pts). set (g := encodeSigned d).
  rewrite (decodeLoop_encodeFrom pts (e ++ g) 0 0 0 [] _ g
             Hvalid inBounds_origin); [| reflexivity | lia].
  fold e. rewrite Nat.add_0_l, app_nil_l.
  pose proof (encodeFrom_length pts 0 0) as Hlen. fold e in Hlen.
  pose proof (encodeGroups_length 6 (zigzag d)) as Hg.
  fold (encodeSigned d) in Hg. fold g in Hg.
  rewrite length_app.
  destruct (length e + length g + 2 - length pts)%nat as [| fuel] eqn:E; [lia |].
  destruct fuel as [| fuel]; [lia |].
  cbn [decodeLoop]. rewrite length_app.
  replace (length e <? length e + length g)%nat with true
    by (symmetry; apply Nat.ltb_lt; lia).
  rewrite (readGroup_encodeSigned d (e ++ g) (length e) (S (S fuel)) []);
    [| lia | rewrite drop_app_length, app_nil_r; reflexivity | fold g; lia].
  fold g.
  rewrite readGroup_past_end by (rewrite length_app; lia).
  cbv zeta. change (JS.wrap32 0) with 0. change (unzigzag 0) with 0.
  rewrite unzigzag_zigzag by lia. rewrite Z.add_0_r.
  replace (S (length e + length g) <? length e + length g)%nat with false
    by (symmetry; apply Nat.ltb_ge; lia).
  reflexivity.
Qed.

End PolylineTotal.

(** ** Alert de-duplication *)
Section FirstById.
Import Alerts.
Context {T : Type} (getId : T -> string).

Lemma firstById_ext l : forall seen seen',
  (forall s, s ∈ seen <-> s ∈ seen') ->
  firstById getId seen l = firstById getId seen' l.
Proof.
  induction l as [| a l IH]; intros seen seen' Hiff; [reflexivity |].
  cbn [firstById].
  destruct (decide (getId a ∈ seen)) as [Hin | Hout];
    destruct (decide (getId a ∈ seen')) as [Hin' | Hout'].
  - apply IH, Hiff.
  - exfalso. apply Hout', Hiff, Hin.
  - exfalso. apply Hout, Hiff, Hin'.
  - f_equal. apply IH. intros s. rewrite !elem_of_cons, Hiff. reflexivity.
Qed.

Lemma firstById_ids l : forall seen s,
  s ∈ getId <$> firstById getId seen l <-> s ∈ getId <$> l /\ s ∉ seen.
Proof.
  induction l as [| a l IH]; intros seen s; cbn [firstById].
  - rewrite fmap_nil, elem_of_nil. tauto.
  - destruct (decide (getId a ∈ seen)) as [Hin | Hout].
    + rewrite IH, fmap_cons, elem_of_cons. split.
      * intros [H1 H2]. auto.
      * intros [[-> | H1] H2]; [contradiction | auto].
    + rewrite !fmap_cons, !elem_of_cons, IH, not_elem_of_cons. split.
      * intros [-> | [H1 [H2 H3]]]; auto.
      * intros [[-> | H1] H2]; [auto |].
        destruct (decide (s = getId a)); auto.
Qed.

Lemma firstById_NoDup l : forall seen,
  NoDup (getId <$> firstById getId seen l).
Proof.
  induction l as [| a l IH]; intros seen; cbn [firstById].
  - constructor.
  - destruct (decide (getId a ∈ seen)); [apply IH |].
    rewrite fmap_cons. apply NoDup_cons. split; [| apply IH].
    rewrite firstById_ids, not_elem_of_cons. tauto.
Qed.

Lemma firstById_sublist l : forall seen,
  firstById getId seen l `sublist_of` l.
Proof.
  induction l as [| a l IH]; intros seen; cbn [firstById].
  - constructor.
  - destruct (decide (getId a ∈ seen)).
    + apply sublist_cons, IH.
    + apply sublist_skip, IH.
Qed.

(** Every element kept is the first of the list with its id. *)
Lemma firstById_first l : forall seen a,
  a ∈ firstById getId seen l ->
  exists pre post, l = pre ++ a :: post /\ getId a ∉ getId <$> pre.
Proof.
  induction l as [| b l IH]; intros seen a; cbn [firstById].
  - intros H. apply elem_of_nil in H. contradiction.
  - destruct (decide (getId b ∈ seen)) as [Hin | Hout].
    + intros H. destruct (IH _ _ H) as (pre & post & -> & Hpre).
      exists (b :: pre), post. split; [reflexivity |].
      rewrite fmap_cons, not_elem_of_cons. split; [| exact Hpre].
      intros Heq. assert (Hid : getId a ∈ getId <$> firstById getId seen (pre ++ a :: post))
        by (apply list_elem_of_fmap_2, H).
      apply firstById_ids in Hid. rewrite Heq in Hid. tauto.
    + rewrite elem_of_cons. intros [-> | H].
      * exists [], l. split; [reflexivity |]. rewrite fmap_nil. apply not_elem_of_nil.
      * destruct (IH _ _ H) as (pre & post & -> & Hpre).
        exists (b :: pre), post. split; [reflexivity |].
        rewrite fmap_cons, not_elem_of_cons. split; [| exact Hpre].
        intros Heq. assert (Hid : getId a ∈ getId <$> firstById getId (getId b :: seen) (pre ++ a :: post))
          by (apply list_elem_of_fmap_2, H).
        apply firstById_ids in Hid. rewrite Heq, not_elem_of_cons in Hid. tauto.
Qed.

(** A list without repeated ids, none of them seen, is kept whole. *)
Lemma firstById_fixed l : forall seen,
  NoDup (getId <$> l) -> (forall s, s ∈ getId <$> l -> s ∉ seen) ->
  firstById getId seen l = l.
Proof.
  induction l as [| a l IH]; intros seen Hnd Hseen; [reflexivity |].
  rewrite fmap_cons in Hnd, Hseen. apply NoDup_cons in Hnd as [Ha Hnd].
  cbn [firstById].
  destruct (decide (getId a ∈ seen)) as [Hin | Hout].
  - exfalso. apply (Hseen (getId a)); [apply elem_of_cons; auto | exact Hin].
  - f_equal. apply IH; [exact Hnd |].
    intros s Hs. rewrite not_elem_of_cons. split.
    + intros ->. contradiction.
    + apply Hseen, elem_of_cons. auto.
Qed.

Lemma firstById_idem l :
  firstById getId [] (firstById getId [] l) = firstById getId [] l.
Proof.
  apply firstById_fixed; [apply firstById_NoDup |].
  intros s _. apply not_elem_of_nil.
Qed.

(** Which elements are kept depends on the ids alone. *)
Lemma firstById_fmap l : forall seen,
  getId <$> firstById getId seen l
  = firstById (fun s : string => s) seen (getId <$> l).
Proof.
  induction l as [| a l IH]; intros seen; [reflexivity |].
  rewrite fmap_cons. cbn [firstById].
  destruct (decide (getId a ∈ seen)); [apply IH |].
  rewrite fmap_cons, IH. reflexivity.
Qed.

(** The loop of [uniqById] computes [firstById]. *)
Lemma uniqById_loop l : forall (seen : gset string) out seenL,
  (forall s, s ∈ seen <-> s ∈ seenL) ->
  snd (foldl (uniqByIdStep getId) (seen, out) l)
  = out ++ firstById getId seenL l.
Proof.
  induction l as [| a l IH]; intros seen out seenL Hiff.
  - simpl. rewrite app_nil_r. reflexivity.
  - cbn [foldl firstById]. unfold uniqByIdStep at 2.
    destruct (decide (getId a ∈ seen)) as [Hin | Hout];
      destruct (decide (getId a ∈ seenL)) as [Hin' | Hout'].
    + apply IH, Hiff.
    + exfalso. apply Hout', Hiff, Hin.
    + exfalso. apply Hout, Hiff, Hin'.
    + rewrite (IH _ _ (getId a :: seenL)), <- app_assoc; [reflexivity |].
      intros s. rewrite elem_of_union, elem_of_singleton, elem_of_cons, Hiff.
      reflexivity.
Qed.

Lemma uniqById_firstById l : uniqById getId l = firstById getId [] l.
Proof.
  unfold uniqById. rewrite (uniqById_loop l ∅ [] []); [reflexivity |].
  intros s. rewrite elem_of_empty, elem_of_nil. reflexivity.
Qed.

End FirstById.

Section UniqueAlerts.
Import Alerts.

Lemma findIndexFrom_skip {A} (p : A -> bool) pre : forall i l,
  (forall x, x ∈ pre -> p x = false) ->
  findIndexFrom p i (pre ++ l) = findIndexFrom p (i + Z.of_nat (length pre)) l.
Proof.
  induction pre as [| b pre IH]; intros i l Hpre.
  - simpl. rewrite Z.add_0_r. reflexivity.
  - cbn [app findIndexFrom length].
    rewrite (Hpre b) by (apply elem_of_cons; auto).
    rewrite IH by (intros x Hx; apply Hpre, elem_of_cons; auto).
    f_equal. lia.
Qed.

Lemma findIndexFrom_hit {A} (p : A -> bool) pre : forall i l x,
  x ∈ pre -> p x = true ->
  i <= findIndexFrom p i (pre ++ l) < i + Z.of_nat (length pre).
Proof.
  induction pre as [| b pre IH]; intros i l x Hx Hp.
  - apply elem_of_nil in Hx. contradiction.
  - cbn [app findIndexFrom length].
    destruct (p b) eqn:Hb; [lia |].
    apply elem_of_cons in Hx as [-> | Hx]; [congruence |].
    specialize (IH (i + 1) l x Hx Hp). lia.
Qed.

(** The filter callback at position [length pre] of [pre ++ a :: rest]
    holds exactly when no earlier alert carries the id of [a]. *)
Lemma first_occurrence_test pre (a : WeatherAlert) rest :
  (Z.of_nat (length pre)
     =? findIndex (fun b => String.eqb (id b) (id a)) (pre ++ a :: rest))
  = bool_decide (id a ∉ id <$> pre).
Proof.
  unfold findIndex. case_bool_decide as Hin.
  - rewrite findIndexFrom_skip.
    + cbn [findIndexFrom]. rewrite String.eqb_refl. apply Z.eqb_eq. lia.
    + intros x Hx. apply String.eqb_neq. intros Heq. apply Hin.
      rewrite <- Heq. apply list_elem_of_fmap_2, Hx.
  - apply list_elem_of_fmap in Hin as (x & Heq & Hx).
    apply Z.eqb_neq.
    pose proof (findIndexFrom_hit (fun b => String.eqb (id b) (id a)) pre 0
                  (a :: rest) x Hx) as Hhit.
    cbv beta in Hhit. rewrite <- Heq, String.eqb_refl in Hhit.
    specialize (Hhit eq_refl). lia.
Qed.

Lemma uniqueAlerts_loop l : forall pre seen,
  (forall s, s ∈ seen <-> s ∈ id <$> pre) ->
  filterFrom
    (fun alert index =>
       index =? findIndex (fun a => String.eqb (id a) (id alert)) (pre ++ l))
    (Z.of_nat (length pre)) l
  = firstById id seen l.
Proof.
  induction l as [| a l IH]; intros pre seen Hiff; [reflexivity |].
  cbn [filterFrom firstById].
  rewrite first_occurrence_test.
  replace (pre ++ a :: l) with ((pre ++ [a]) ++ l) by (rewrite <- app_assoc; reflexivity).
  replace (Z.of_nat (length pre) + 1) with (Z.of_nat (length (pre ++ [a])))
    by (rewrite length_app; simpl; lia).
  case_bool_decide as Hin; destruct (decide (id a ∈ seen)) as [Hs | Hs].
  - exfalso. apply Hin, Hiff, Hs.
  - f_equal. apply IH. intros s.
    rewrite fmap_app, elem_of_app, elem_of_cons, Hiff, fmap_cons, fmap_nil,
      list_elem_of_singleton. tauto.
  - apply IH. intros s.
    rewrite fmap_app, elem_of_app, fmap_cons, fmap_nil, list_elem_of_singleton,
      <- Hiff. split; [auto |]. intros [H | ->]; assumption.
  - exfalso. apply Hs, Hiff, Hin.
Qed.

Lemma uniqueAlerts_firstById l : uniqueAlerts l = firstById id [] l.
Proof.
  unfold uniqueAlerts, filter3.
  apply (uniqueAlerts_loop l [] []). intros s. reflexivity.
Qed.

End UniqueAlerts.

(** ** Road-surface classification *)
Section RoadSurfaceFacts.
Import Str RoadSurface.

Lemma hasAlert_true weather alerts :
  alerts <> [] -> hasAlert (mkWaypointWeather weather alerts) = true.
Proof. destruct alerts; [congruence | reflexivity]. Qed.

Lemma roadCondition_alert weather alerts :
  alerts <> [] ->
  roadCondition (mkWaypointWeather weather alerts)
  = mkRoadCondition iconWarning "HAZARD" "#ef4444"
      (Text (alertDesc (mkWaypointWeather weather alerts)))
      "Check conditions before driving".
Proof.
  intros Hne. unfold roadCondition. rewrite hasAlert_true by assumption.
  reflexivity.
Qed.

(** Without a snapshot the derivation runs on the defaults. *)
Lemma roadCondition_absent alerts :
  roadCondition (mkWaypointWeather None alerts)
  = roadCondition
      (mkWaypointWeather (Some (mkWeather (Some 50%Q) None None None)) alerts).
Proof. destruct alerts; reflexivity. Qed.

Lemma roadCondition_absent_no_alert :
  roadCondition (mkWaypointWeather None [])
  = mkRoadCondition iconCheck "DRY" "#22c55e"
      (Text "Roads clear and dry") "Normal driving conditions".
Proof. reflexivity. Qed.

(** The temperature the chain of tests works with, for a snapshot whose
    temperature is not 0. *)
Lemma temp_present w alerts t :
  temperature w = Some t -> Qeq_bool t 0 = false ->
  temp (mkWaypointWeather (Some w) alerts) = t.
Proof. intros Ht H0. unfold temp. cbn [weather]. rewrite Ht, H0. reflexivity. Qed.

Lemma temp_null w alerts :
  temperature w = None -> temp (mkWaypointWeather (Some w) alerts) = 50%Q.
Proof. intros Ht. unfold temp. cbn [weather]. rewrite Ht. reflexivity. Qed.

(** Case analysis on the tests of the chain, in the order they are met;
    a branch is closed as soon as both sides are decided. *)
Ltac split_tests text wind :=
  repeat first
    [ reflexivity
    | progress
        (match goal with
         | |- context [Qle_bool ?t ?k] => destruct (Qle_bool t k)
         | |- context [includes text ?word] => destruct (includes text word)
         end; cbn [andb orb negb])
    | destruct wind ].

(** The chain of tests agrees with the rule table that counts fog and
    mist as fog, for every snapshot whose temperature is not 0. *)
Lemma roadCondition_table w :
  (forall t, temperature w = Some t -> Qeq_bool t 0 = false) ->
  categoryOf (condLabel (roadCondition (mkWaypointWeather (Some w) [])))
  = Some (classifyFogMist (readingOf w)).
Proof.
  intros H0.
  unfold roadCondition, classifyFogMist, firstMatch, rulesWith, readingOf,
    tempLe, tempGt, mentions.
  cbn [hasAlert alerts length Nat.ltb Nat.leb find fst snd existsb
       readTemp readText readWind].
  unfold conditionsText. cbn [weather].
  set (text := toLowerCase (default EmptyString (conditions w))).
  set (wind := gt (windSpeed (mkWaypointWeather (Some w) [])) 30).
  destruct (temperature w) as [t |] eqn:Ht.
  - rewrite (temp_present w [] t Ht (H0 t eq_refl)). split_tests text wind.
  - rewrite (temp_null w [] Ht).
    change (Qle_bool 50 32) with false. change (Qle_bool 50 40) with false.
    cbn [andb orb negb]. split_tests text wind.
Qed.

End RoadSurfaceFacts.

(** ** Premium status *)
Section PremiumFacts.
Import Premium.
Variable JSON_parse : string -> option PremiumStatus.
Variable Date_parse : string -> option Z.

Lemma getPremiumStatus_unreadable st now :
  getItem st PREMIUM_KEY = None -> getPremiumStatus JSON_parse Date_parse st now = notPremium.
Proof. intros H. unfold getPremiumStatus. rewrite H. reflexivity. Qed.

Lemma getPremiumStatus_absent st now :
  getItem st PREMIUM_KEY = Some None -> getPremiumStatus JSON_parse Date_parse st now = notPremium.
Proof. intros H. unfold getPremiumStatus. rewrite H. reflexivity. Qed.

Lemma getPremiumStatus_unparsable st now data :
  getItem st PREMIUM_KEY = Some (Some data) ->
  data = EmptyString \/ JSON_parse data = None ->
  getPremiumStatus JSON_parse Date_parse st now = notPremium.
Proof.
  intros H Hbad. unfold getPremiumStatus. rewrite H.
  destruct (decide (data = EmptyString)) as [| Hne]; [reflexivity |].
  destruct Hbad as [| Hparse]; [contradiction |].
  rewrite Hparse. reflexivity.
Qed.

Lemma getPremiumStatus_expired st now data status :
  getItem st PREMIUM_KEY = Some (Some data) -> data <> EmptyString ->
  JSON_parse data = Some status -> expired Date_parse status now ->
  getPremiumStatus JSON_parse Date_parse st now = notPremium.
Proof.
  intros H Hne Hparse (e & t & He & Hene & Ht & Hlt).
  unfold getPremiumStatus. rewrite H.
  destruct (decide (data = EmptyString)); [contradiction |].
  rewrite Hparse, He.
  destruct (decide (e = EmptyString)); [contradiction |].
  rewrite Ht. unfold before.
  replace (t <? now) with true by (symmetry; apply Z.ltb_lt; exact Hlt).
  reflexivity.
Qed.

Lemma getPremiumStatus_current st now data status :
  getItem st PREMIUM_KEY = Some (Some data) -> data <> EmptyString ->
  JSON_parse data = Some status -> ~ expired Date_parse status now ->
  getPremiumStatus JSON_parse Date_parse st now = status.
Proof.
  intros H Hne Hparse Hnot.
  unfold getPremiumStatus. rewrite H.
  destruct (decide (data = EmptyString)); [contradiction |].
  rewrite Hparse.
  destruct (expiresAt status) as [e |] eqn:He; [| reflexivity].
  destruct (decide (e = EmptyString)) as [| Hene]; [reflexivity |].
  destruct (Date_parse e) as [t |] eqn:Ht; [| reflexivity].
  unfold before. destruct (t <? now) eqn:Hlt; [| reflexivity].
  exfalso. apply Hnot. exists e, t. apply Z.ltb_lt in Hlt. auto.
Qed.

End PremiumFacts.

(** ** Polyline: an unterminated last group *)
Section PolylineUnterminated.
Import Polyline.

Lemma decodeLoop_unfold fuel encoded index lat lng points :
  decodeLoop (S fuel) encoded index lat lng points
  = if (index <? length encoded)%nat then
      match readGroup (S fuel) encoded index 0 0 with
      | None => None
      | Some (result, index) =>
          match readGroup (S fuel) encoded index 0 0 with
          | None => None
          | Some (result', index) =>
              decodeLoop fuel encoded index (lat + unzigzag result)
                (lng + unzigzag result')
                (points ++ [mkLatLng (lat + unzigzag result) (lng + unzigzag result')])
          end
      end
    else Some points.
Proof. reflexivity. Qed.

(** The encoding of valid points followed by one code unit whose
    continuation bit is set: the read past the end closes the group, the
    absent longitude group is read as delta 0, one more point is pushed. *)
Lemma decodePolyline_unterminated pts c :
  Forall validPoint pts -> 95 <= c < 127 ->
  decodePolyline (encode pts ++ [c])
  = Some (pts ++ [mkLatLng (latitude (lastOr 0 0 pts) + unzigzag ((c - 63) mod 32))
                           (longitude (lastOr 0 0 pts))]).
Proof.
  intros Hvalid Hc. unfold decodePolyline, encode.
  set (e := encodeFrom 0 0 pts).
  rewrite (decodeLoop_encodeFrom pts (e ++ [c]) 0 0 0 [] _ [c]
             Hvalid inBounds_origin); [| reflexivity | lia].
  fold e. rewrite Nat.add_0_l, app_nil_l.
  pose proof (encodeFrom_length pts 0 0) as Hlen. fold e in Hlen.
  rewrite length_app. cbn [length].
  destruct (length e + 1 + 2 - length pts)%nat as [| [| fuel]] eqn:E; try lia.
  rewrite decodeLoop_unfold, length_app. cbn [length].
  replace (length e <? length e + 1)%nat with true
    by (symmetry; apply Nat.ltb_lt; lia).
  assert (Hat : (e ++ [c]) !! length e = Some c) by apply list_lookup_middle, eq_refl.
  rewrite (readGroup_step _ _ _ _ _ _ Hat). cbv zeta.
  replace (32 <=? c - 63) with true by (symmetry; apply Z.leb_le; lia).
  assert (Hm : 0 <= (c - 63) mod 32 < 32) by (apply Z.mod_pos_bound; lia).
  rewrite group_accumulate; try (change (2 ^ 0) with 1; lia).
  change (2 ^ 0) with 1.
  replace (0 + (c - 63) mod 32 * 1) with ((c - 63) mod 32) by lia.
  rewrite readGroup_past_end by (rewrite length_app; simpl; lia).
  rewrite (wrap32_small ((c - 63) mod 32)) by lia.
  rewrite readGroup_past_end by (rewrite length_app; simpl; lia).
  cbv zeta. change (JS.wrap32 0) with 0. change (unzigzag 0) with 0.
  rewrite Z.add_0_r, decodeLoop_unfold, length_app. cbn [length].
  replace (S (S (S (length e))) <? length e + 1)%nat with false
    by (symmetry; apply Nat.ltb_ge; lia).
  reflexivity.
Qed.

End PolylineUnterminated.

(** * The claims of the specification *)

(** ** Road-surface classification: C1, C2, C7 *)
Section RoadSurfaceClaims.
Import Str RoadSurface.

(** C1. A waypoint whose alert list is not empty is classified HAZARD,
    the category [hazard] of severity 3, whatever its snapshot holds
    (present or absent, any temperature, conditions text and wind speed):
    the alert test is the first of the chain. *)
Theorem alert_dominates (weather : option WeatherData) (alerts : list WeatherAlert) :
  alerts <> [] ->
  condLabel (roadCondition (mkWaypointWeather weather alerts)) = "HAZARD" /\
  categoryOf (condLabel (roadCondition (mkWaypointWeather weather alerts)))
  = Some hazard /\
  severityOf hazard = 3.
Proof.
  intros Hne. rewrite roadCondition_alert by assumption.
  repeat split; reflexivity.
Qed.

Lemma alert_dominates_witness :
  [mkAlert "Winter Storm Warning" "Heavy snow expected" "Severe"] <> [] /\
  condLabel
    (roadCondition
       (mkWaypointWeather
          (Some (mkWeather (Some 70%Q) (Some "Sunny") (Some "5 mph") None))
          [mkAlert "Winter Storm Warning" "Heavy snow expected" "Severe"]))
  = "HAZARD".
Proof.
  split; [discriminate |].
  apply (alert_dominates
           (Some (mkWeather (Some 70%Q) (Some "Sunny") (Some "5 mph") None))
           [mkAlert "Winter Storm Warning" "Heavy snow expected" "Severe"]).
  discriminate.
Defined.

(** C2, as stated, fails: a waypoint without snapshot and without alert
    is classified DRY, and the result is the very record obtained for a
    snapshot that reads 70 degrees, clear sky and light wind. *)
Lemma absent_snapshot_is_dry :
  condLabel (roadCondition (mkWaypointWeather None [])) = "DRY" /\
  categoryOf (condLabel (roadCondition (mkWaypointWeather None []))) = Some dry /\
  roadCondition (mkWaypointWeather None [])
  = roadCondition
      (mkWaypointWeather
         (Some (mkWeather (Some 70%Q) (Some "Clear") (Some "5 mph") None)) []).
Proof. repeat split; reflexivity. Qed.

(** C2, amended. For a waypoint whose snapshot is absent the derivation
    runs on the defaults (temperature 50, empty conditions text, wind
    speed 0): the result is that of a snapshot holding just the
    temperature 50; it is DRY, "Roads clear and dry", when the alert list
    is empty and HAZARD otherwise. *)
Theorem absent_snapshot_defaults (alerts : list WeatherAlert) :
  roadCondition (mkWaypointWeather None alerts)
  = roadCondition
      (mkWaypointWeather (Some (mkWeather (Some 50%Q) None None None)) alerts) /\
  (alerts = [] ->
   roadCondition (mkWaypointWeather None alerts)
   = mkRoadCondition iconCheck "DRY" "#22c55e"
       (Text "Roads clear and dry") "Normal driving conditions") /\
  (alerts <> [] ->
   condLabel (roadCondition (mkWaypointWeather None alerts)) = "HAZARD").
Proof.
  split; [apply roadCondition_absent |]. split.
  - intros ->. apply roadCondition_absent_no_alert.
  - intros Hne. rewrite roadCondition_alert by assumption. reflexivity.
Qed.

Lemma absent_snapshot_defaults_witness :
  (@nil WeatherAlert) = [] /\
  roadCondition (mkWaypointWeather None [])
  = mkRoadCondition iconCheck "DRY" "#22c55e"
      (Text "Roads clear and dry") "Normal driving conditions".
Proof.
  split; [reflexivity |].
  apply (proj1 (proj2 (absent_snapshot_defaults []))). reflexivity.
Defined.

(** C7, as stated, fails on haze: section 4.5 read as written puts a
    snapshot of 50 degrees and "Haze" into the category fog, the chain of
    tests leaves it DRY. *)
Lemma haze_is_not_fog :
  classifySpec (readingOf (mkWeather (Some 50%Q) (Some "Haze") (Some "5 mph") None))
  = fog /\
  categoryOf
    (condLabel
       (roadCondition
          (mkWaypointWeather
             (Some (mkWeather (Some 50%Q) (Some "Haze") (Some "5 mph") None)) [])))
  = Some dry.
Proof. split; reflexivity. Qed.

(** The temperature 0 is taken for a missing temperature and replaced by
    50: snow at 0 degrees is left DRY. *)
Example zero_degrees_snow_is_dry :
  condLabel
    (roadCondition
       (mkWaypointWeather
          (Some (mkWeather (Some 0%Q) (Some "Snow") (Some "5 mph") None)) []))
  = "DRY".
Proof. reflexivity. Qed.

(** C7, amended. For a present snapshot whose temperature is not 0 and an
    empty alert list, the category is that of the first matching rule of
    the table of section 4.5 with fog and mist (not haze) counting as fog:
    icy at 32 degrees or less with rain, freezing or drizzle; snow at 32
    or less with snow; slush above 32 and up to 40 with snow; fog; wet for
    rain, shower or drizzle; storm for thunder or storm; windy when the
    parsed wind speed exceeds 30; dry otherwise.  A snapshot without
    temperature matches none of the temperature rules. *)
Theorem roadCondition_first_match (w : WeatherData) :
  (forall t, temperature w = Some t -> Qeq_bool t 0 = false) ->
  categoryOf (condLabel (roadCondition (mkWaypointWeather (Some w) [])))
  = Some (firstMatch (rulesWith ["fog"; "mist"]) (readingOf w)).
Proof. intros H0. apply roadCondition_table, H0. Qed.

Lemma roadCondition_first_match_witness :
  (forall t, Some 28%Q = Some t -> Qeq_bool t 0 = false) /\
  categoryOf
    (condLabel
       (roadCondition
          (mkWaypointWeather
             (Some (mkWeather (Some 28%Q) (Some "Light Rain") (Some "10 mph") None))
             [])))
  = Some icy.
Proof.
  assert (H : forall t, Some 28%Q = Some t -> Qeq_bool t 0 = false).
  { intros t Ht. injection Ht as <-. reflexivity. }
  split; [exact H |].
  apply (roadCondition_first_match
           (mkWeather (Some 28%Q) (Some "Light Rain") (Some "10 mph") None) H).
Defined.

End RoadSurfaceClaims.

(** ** Polyline: C3, C4, C9 *)
Section PolylineClaims.
Import Polyline.

(** C3. Decoding the encoding of a list of valid points (latitude within
    90 degrees, longitude within 180, in units of 1e-5 degree) gives the
    list back. *)
Theorem polyline_round_trip (pts : list LatLng) :
  Forall validPoint pts -> decodePolyline (encode pts) = Some pts.
Proof. apply decodePolyline_encode. Qed.

Lemma polyline_round_trip_witness :
  Forall validPoint
    [mkLatLng 3850000 (-12020000); mkLatLng 4070000 (-12095000);
     mkLatLng 4325200 (-12645300)] /\
  decodePolyline
    (encode [mkLatLng 3850000 (-12020000); mkLatLng 4070000 (-12095000);
             mkLatLng 4325200 (-12645300)])
  = Some [mkLatLng 3850000 (-12020000); mkLatLng 4070000 (-12095000);
          mkLatLng 4325200 (-12645300)].
Proof.
  assert (H : Forall validPoint
                [mkLatLng 3850000 (-12020000); mkLatLng 4070000 (-12095000);
                 mkLatLng 4325200 (-12645300)]).
  { repeat (apply Forall_cons_2; [unfold validPoint; simpl; lia |]).
    apply Forall_nil_2. }
  split; [exact H | apply (polyline_round_trip _ H)].
Defined.

(** C4, as stated, fails: the decoder has no error result.  A string cut
    after the latitude group of its first point, and a string cut inside
    a group (last code unit with the continuation bit set), both decode
    to a list of points. *)
Lemma truncated_polyline_decodes :
  decodePolyline (codeUnits "_p~iF") = Some [mkLatLng 3850000 0] /\
  decodePolyline (codeUnits "_p~iF~ps|U_ul")
  = Some [mkLatLng 3850000 (-12020000); mkLatLng 3857008 (-12020000)].
Proof. split; vm_compute; reflexivity. Qed.

(** C4, amended. The decoder never fails.  Every string decodes to a list
    of points, not empty when the string is not; after the encoding of
    valid points, a single further group (odd number of groups) or a
    single code unit with the continuation bit set (unterminated group)
    adds one point whose longitude is that of the last point; and every
    string written by the encoder for valid points decodes to these
    points. *)
Theorem decodePolyline_accepts_truncated (pts : list LatLng) (d c : Z) :
  Forall validPoint pts -> - 2 ^ 30 <= d < 2 ^ 30 -> 95 <= c < 127 ->
  (forall encoded, exists out,
      decodePolyline encoded = Some out /\ (encoded <> [] -> out <> [])) /\
  decodePolyline (encode pts ++ encodeSigned d)
  = Some (pts ++ [mkLatLng (latitude (lastOr 0 0 pts) + d)
                           (longitude (lastOr 0 0 pts))]) /\
  decodePolyline (encode pts ++ [c])
  = Some (pts ++ [mkLatLng (latitude (lastOr 0 0 pts) + unzigzag ((c - 63) mod 32))
                           (longitude (lastOr 0 0 pts))]) /\
  decodePolyline (encode pts) = Some pts.
Proof.
  intros Hvalid Hd Hc. split; [exact decodePolyline_returns |].
  split; [apply decodePolyline_odd_groups; assumption |].
  split; [apply decodePolyline_unterminated; assumption |].
  apply decodePolyline_encode, Hvalid.
Qed.

Lemma decodePolyline_accepts_truncated_witness :
  Forall validPoint [mkLatLng 3850000 (-12020000)] /\
  - 2 ^ 30 <= 220000 < 2 ^ 30 /\ 95 <= 95 < 127 /\
  decodePolyline (encode [mkLatLng 3850000 (-12020000)] ++ encodeSigned 220000)
  = Some [mkLatLng 3850000 (-12020000); mkLatLng 4070000 (-12020000)].
Proof.
  assert (H : Forall validPoint [mkLatLng 3850000 (-12020000)]).
  { apply Forall_cons_2; [unfold validPoint; simpl; lia | apply Forall_nil_2]. }
  assert (Hd : - 2 ^ 30 <= 220000 < 2 ^ 30) by lia.
  assert (Hc : 95 <= 95 < 127) by lia.
  split; [exact H |]. split; [exact Hd |]. split; [exact Hc |].
  apply (proj1 (proj2 (decodePolyline_accepts_truncated _ 220000 95 H Hd Hc))).
Defined.

(** C9. The decoder is total: for every string the budgeted run returns a
    list of points, and a larger budget returns the same list; every run
    of the group loop returns with a larger index, so that each turn of
    the outer loop, which runs it twice, moves the index forward; and a
    read at or past the end of the string ([NaN]) leaves the group loop
    at once, adding no bits to the result. *)
Theorem decodePolyline_total (encoded : list Z) :
  (exists pts,
      decodePolyline encoded = Some pts /\
      forall fuel, (length encoded + 2 <= fuel)%nat ->
                   decodeLoop fuel encoded 0 0 0 [] = Some pts) /\
  (forall index shift result, exists r idx,
      readGroup (length encoded + 2) encoded index shift result = Some (r, idx) /\
      (index < idx)%nat) /\
  (forall fuel index shift result,
      (length encoded <= index)%nat ->
      readGroup (S fuel) encoded index shift result
      = Some (JS.wrap32 result, S index)).
Proof.
  split; [| split].
  - destruct (decodePolyline_returns encoded) as (pts & Hpts & _).
    exists pts. split; [exact Hpts |].
    intros fuel Hfuel. apply (decodeLoop_mono _ _ _ _ _ _ _ _ Hpts Hfuel).
  - intros index shift result. apply readGroup_total. lia.
  - intros fuel index shift result. apply readGroup_past_end.
Qed.

Lemma decodePolyline_total_witness :
  decodeLoop 100 (codeUnits "_p~iF~ps|U_ul") 0 0 0 []
  = decodePolyline (codeUnits "_p~iF~ps|U_ul").
Proof.
  destruct (decodePolyline_total (codeUnits "_p~iF~ps|U_ul"))
    as [(pts & Hpts & Hfuel) _].
  rewrite Hpts. apply Hfuel. simpl. lia.
Defined.

End PolylineClaims.

(** ** Alert de-duplication: C5, C6 *)
Section AlertClaims.
Import Alerts.

(** C5. The route-level alert list holds every id of the collected alerts
    exactly once; it is a sublist of the collected list in which each
    alert kept is the first one carrying its id; which positions are kept
    depends on the ids alone, no other field is compared; [uniqById]
    computes the same list. *)
Theorem uniqueAlerts_first_occurrences (collected : list WeatherAlert) :
  NoDup (id <$> uniqueAlerts collected) /\
  (forall s, s ∈ id <$> uniqueAlerts collected <-> s ∈ id <$> collected) /\
  uniqueAlerts collected `sublist_of` collected /\
  (forall a, a ∈ uniqueAlerts collected ->
     exists pre post, collected = pre ++ a :: post /\ id a ∉ id <$> pre) /\
  id <$> uniqueAlerts collected
  = firstById (fun s : string => s) [] (id <$> collected) /\
  uniqById id collected = uniqueAlerts collected.
Proof.
  rewrite uniqById_firstById, uniqueAlerts_firstById.
  split; [apply firstById_NoDup |].
  split; [intros s; rewrite firstById_ids, elem_of_nil; tauto |].
  split; [apply firstById_sublist |].
  split; [apply firstById_first |].
  split; [apply firstById_fmap | reflexivity].
Qed.

Lemma uniqueAlerts_first_occurrences_witness :
  exists pre post,
    [mkAlert "A" "Flood" "Severe" "Flood" "text" None;
     mkAlert "B" "Wind" "Minor" "Wind" "text" None;
     mkAlert "A" "Flood" "Severe" "Flood" "text" None]
    = pre ++ mkAlert "B" "Wind" "Minor" "Wind" "text" None :: post /\
    "B" ∉ id <$> pre.
Proof.
  destruct (uniqueAlerts_first_occurrences
              [mkAlert "A" "Flood" "Severe" "Flood" "text" None;
               mkAlert "B" "Wind" "Minor" "Wind" "text" None;
               mkAlert "A" "Flood" "Severe" "Flood" "text" None])
    as (_ & _ & _ & Hfirst & _).
  apply (Hfirst (mkAlert "B" "Wind" "Minor" "Wind" "text" None)).
  vm_compute. apply list_elem_of_further, list_elem_of_here.
Defined.

(** Two alerts with the same text and different ids are both kept; of two
    alerts with the same id and different texts the first is kept. *)
Example identity_is_the_id :
  uniqueAlerts
    [mkAlert "A" "Flood" "Severe" "Flood" "text" None;
     mkAlert "B" "Flood" "Severe" "Flood" "text" None;
     mkAlert "A" "Wind" "Minor" "Wind" "other text" None]
  = [mkAlert "A" "Flood" "Severe" "Flood" "text" None;
     mkAlert "B" "Flood" "Severe" "Flood" "text" None].
Proof. reflexivity. Qed.

(** C6. De-duplication is idempotent, for the filter of the route screen
    and for [uniqById]; its result is a sublist of its argument (the order
    of the list is kept) made of the first occurrence of each id. *)
Theorem uniqueAlerts_idempotent (collected : list WeatherAlert) :
  uniqueAlerts (uniqueAlerts collected) = uniqueAlerts collected /\
  uniqById id (uniqById id collected) = uniqById id collected /\
  uniqueAlerts collected `sublist_of` collected /\
  uniqueAlerts collected = firstById id [] collected.
Proof.
  rewrite !uniqById_firstById, !uniqueAlerts_firstById.
  split; [apply firstById_idem |].
  split; [apply firstById_idem |].
  split; [apply firstById_sublist | reflexivity].
Qed.

End AlertClaims.

(** ** Premium status: C10 *)
Section PremiumClaims.
Import Premium.

(** C10. [getPremiumStatus] returns [{isPremium: false}] when the store
    cannot be read, when nothing is stored under the key, when the stored
    text is empty or does not parse, and when the stored status carries an
    expiry date earlier than the current time; in every other case it
    returns the stored status as parsed. *)
Theorem getPremiumStatus_cases
    (JSON_parse : string -> option PremiumStatus)
    (Date_parse : string -> option Z) (st : AsyncStorage) (now : Z) :
  (getItem st PREMIUM_KEY = None ->
   getPremiumStatus JSON_parse Date_parse st now = notPremium) /\
  (getItem st PREMIUM_KEY = Some None ->
   getPremiumStatus JSON_parse Date_parse st now = notPremium) /\
  (forall data,
     getItem st PREMIUM_KEY = Some (Some data) ->
     data = EmptyString \/ JSON_parse data = None ->
     getPremiumStatus JSON_parse Date_parse st now = notPremium) /\
  (forall data status,
     getItem st PREMIUM_KEY = Some (Some data) -> data <> EmptyString ->
     JSON_parse data = Some status -> expired Date_parse status now ->
     getPremiumStatus JSON_parse Date_parse st now = notPremium) /\
  (forall data status,
     getItem st PREMIUM_KEY = Some (Some data) -> data <> EmptyString ->
     JSON_parse data = Some status -> ~ expired Date_parse status now ->
     getPremiumStatus JSON_parse Date_parse st now = status).
Proof.
  split; [apply getPremiumStatus_unreadable |].
  split; [apply getPremiumStatus_absent |].
  split; [apply getPremiumStatus_unparsable |].
  split; [apply getPremiumStatus_expired | apply getPremiumStatus_current].
Qed.

(** A yearly plan stored with an expiry date of 1 January 2020, read on
    13 September 2020. *)
Lemma getPremiumStatus_cases_witness :
  getPremiumStatus
    (fun _ => Some (mkStatus true (Some yearly) (Some "2020-01-01T00:00:00Z")))
    (fun _ => Some 1577836800000)
    (Store {[ PREMIUM_KEY := "stored status" ]}) 1600000000000
  = notPremium.
Proof.
  destruct (getPremiumStatus_cases
              (fun _ => Some (mkStatus true (Some yearly) (Some "2020-01-01T00:00:00Z")))
              (fun _ => Some 1577836800000)
              (Store {[ PREMIUM_KEY := "stored status" ]}) 1600000000000)
    as (_ & _ & _ & Hexpired & _).
  apply (Hexpired "stored status"
           (mkStatus true (Some yearly) (Some "2020-01-01T00:00:00Z"))).
  - unfold getItem. rewrite lookup_singleton_eq. reflexivity.
  - discriminate.
  - reflexivity.
  - exists "2020-01-01T00:00:00Z", 1577836800000.
    split; [reflexivity |]. split; [discriminate |]. split; [reflexivity | lia].
Defined.

End PremiumClaims.

(** * Further properties of the code *)

(** ** Premium status: writes and reads *)
Section PremiumWriteFacts.
Import Premium PremiumWrites.
Variable JSON_stringify : PremiumStatus -> string.
Variable JSON_parse : string -> option PremiumStatus.
Variable Date_parse : string -> option Z.

(** X2. Reading back what [setPremiumStatus] wrote to a reachable store:
    when the serialised status is not empty and parses to the status, the
    read returns the status itself unless it has expired, and
    [{isPremium: false}] when it has. *)
Theorem set_then_get (items : gmap string string) (status : PremiumStatus)
    (now : Z) :
  JSON_stringify status <> EmptyString ->
  JSON_parse (JSON_stringify status) = Some status ->
  (~ expired Date_parse status now ->
   getPremiumStatus JSON_parse Date_parse
     (setPremiumStatus JSON_stringify (Store items) status) now = status) /\
  (expired Date_parse status now ->
   getPremiumStatus JSON_parse Date_parse
     (setPremiumStatus JSON_stringify (Store items) status) now = notPremium).
Proof.
  intros Hne Hparse.
  assert (Hget : getItem (setPremiumStatus JSON_stringify (Store items) status)
                   PREMIUM_KEY = Some (Some (JSON_stringify status))).
  { unfold setPremiumStatus, PremiumCalls.setPremiumStatus, PremiumCalls.setItem,
      getItem.
    rewrite lookup_insert_eq. reflexivity. }
  split; intros Hexp.
  - apply (getPremiumStatus_current _ _ _ _ _ _ Hget Hne Hparse Hexp).
  - apply (getPremiumStatus_expired _ _ _ _ _ _ Hget Hne Hparse Hexp).
Qed.

(** X3. The status returned by [getPremiumStatus] is never an expired one:
    it carries no expiry date that parses to a time before [now]. *)
Theorem getPremiumStatus_never_expired (st : AsyncStorage) (now : Z) :
  ~ expired Date_parse (getPremiumStatus JSON_parse Date_parse st now) now.
Proof.
  assert (Hnot : ~ expired Date_parse notPremium now).
  { intros (e & t & He & _). discriminate. }
  unfold getPremiumStatus.
  destruct (getItem st PREMIUM_KEY) as [[data |] |]; try exact Hnot.
  destruct (decide (data = EmptyString)); [exact Hnot |].
  destruct (JSON_parse data) as [status |]; [| exact Hnot].
  destruct (expiresAt status) as [e |] eqn:He.
  - destruct (decide (e = EmptyString)) as [-> | Hene].
    + intros (e' & t & He' & Hne' & _). congruence.
    + destruct (Date_parse e) as [t |] eqn:Ht; unfold before.
      * destruct (t <? now) eqn:Hlt; [exact Hnot |].
        intros (e' & t' & He' & _ & Ht' & Hlt').
        apply Z.ltb_ge in Hlt. assert (e' = e) as -> by congruence.
        rewrite Ht in Ht'. injection Ht' as <-. lia.
      * intros (e' & t' & He' & _ & Ht' & _). congruence.
  - intros (e' & t' & He' & _). congruence.
Qed.


End PremiumWriteFacts.

Lemma set_then_get_witness :
  Premium.getPremiumStatus
    (fun _ => Some (Premium.mkStatus true (Some Premium.monthly) None))
    (fun _ => None)
    (PremiumWrites.setPremiumStatus (fun _ => "status")
       (Premium.Store ∅) (Premium.mkStatus true (Some Premium.monthly) None))
    1600000000000
  = Premium.mkStatus true (Some Premium.monthly) None.
Proof.
  apply (proj1 (set_then_get (fun _ => "status")
                  (fun _ => Some (Premium.mkStatus true (Some Premium.monthly) None))
                  (fun _ => None) ∅
                  (Premium.mkStatus true (Some Premium.monthly) None)
                  1600000000000 ltac:(discriminate) eq_refl)).
  intros (e & t & He & _). discriminate.
Defined.

(** ** Premium status: a clear and the read after it, call by call *)
Section PremiumCallFacts.
Import Premium PremiumCalls.
Variable JSON_parse : string -> option PremiumStatus.
Variable Date_parse : string -> option Z.

(** X1. A clear resets the status when its [removeItem] is fulfilled: the
    next read then gives [{isPremium: false}], fulfilled or not.  When the
    [removeItem] is rejected the failure is swallowed and the stored items
    stay: the next read gives what it gave before the clear, so a fulfilled
    read still returns a stored status that parses and has not expired. *)
Theorem clear_then_get (items : gmap string string) (read : Settled)
    (now : Z) :
  getPremiumStatus JSON_parse Date_parse
    (readBy read (clearPremiumStatus Fulfilled items)) now = notPremium /\
  getPremiumStatus JSON_parse Date_parse
    (readBy read (clearPremiumStatus Rejected items)) now
  = getPremiumStatus JSON_parse Date_parse (readBy read items) now /\
  (forall data status,
     items !! PREMIUM_KEY = Some data -> data <> EmptyString ->
     JSON_parse data = Some status -> ~ expired Date_parse status now ->
     getPremiumStatus JSON_parse Date_parse
       (readBy Fulfilled (clearPremiumStatus Rejected items)) now = status).
Proof.
  split; [| split].
  - destruct read; [| reflexivity].
    unfold getPremiumStatus, clearPremiumStatus, removeItem, readBy, getItem.
    rewrite lookup_delete_eq. reflexivity.
  - reflexivity.
  - intros data status Hdata Hne Hparse Hnot.
    apply (getPremiumStatus_current JSON_parse Date_parse _ _ data status);
      [| assumption | assumption | assumption].
    unfold clearPremiumStatus, removeItem, readBy, getItem.
    rewrite Hdata. reflexivity.
Qed.

End PremiumCallFacts.

Lemma clear_then_get_witness :
  Premium.getPremiumStatus
    (fun _ => Some (Premium.mkStatus true (Some Premium.yearly) None))
    (fun _ => None)
    (PremiumCalls.readBy PremiumCalls.Fulfilled
       (PremiumCalls.clearPremiumStatus PremiumCalls.Rejected
          {[ Premium.PREMIUM_KEY := "status" ]}))
    1600000000000
  = Premium.mkStatus true (Some Premium.yearly) None.
Proof.
  apply (proj2 (proj2 (clear_then_get
                  (fun _ => Some (Premium.mkStatus true (Some Premium.yearly) None))
                  (fun _ => None) {[ Premium.PREMIUM_KEY := "status" ]}
                  PremiumCalls.Fulfilled 1600000000000)) "status").
  - apply lookup_singleton_eq.
  - discriminate.
  - reflexivity.
  - intros (e & t & He & _). discriminate.
Defined.

(** ** Polyline: size and magnitude of the decoded route *)
Section PolylineBounds.
Import Polyline PolylineMeasure.

Lemma wrap32_range z : - 2 ^ 31 <= JS.wrap32 z < 2 ^ 31.
Proof.
  unfold JS.wrap32.
  pose proof (Z.mod_pos_bound (z + 2 ^ 31) (2 ^ 32) ltac:(lia)). lia.
Qed.

(** Every delta the decoder adds lies in [-2^30, 2^30). *)
Lemma unzigzag_range r : - 2 ^ 30 <= unzigzag r < 2 ^ 30.
Proof.
  unfold unzigzag, JS.sar, JS.not, JS.ToInt32.
  change (JS.wrap32 1 mod 32) with 1.
  pose proof (wrap32_range r) as Hw.
  rewrite Z.shiftr_div_pow2 by lia. change (2 ^ 1) with 2.
  assert (Hhalf : - 2 ^ 30 <= JS.wrap32 r / 2 < 2 ^ 30).
  { split.
    - apply Z.div_le_lower_bound; lia.
    - apply Z.div_lt_upper_bound; lia. }
  destruct (JS.and (Some r) (Some 1) =? 0); [exact Hhalf |].
  rewrite wrap32_small by lia. unfold Z.lnot. lia.
Qed.

Lemma decodeLoop_bounds fuel :
  forall encoded index lat lng acc out,
    decodeLoop fuel encoded index lat lng acc = Some out ->
    exists pts,
      out = acc ++ pts /\
      (2 * length pts <= length encoded - index + 1)%nat /\
      forall i p, pts !! i = Some p -> near lat lng (Z.of_nat i + 1) p.
Proof.
  induction fuel as [| fuel IH]; intros encoded index lat lng acc out Hrun;
    [discriminate |].
  rewrite decodeLoop_unfold in Hrun.
  destruct (index <? length encoded)%nat eqn:E.
  - apply Nat.ltb_lt in E.
    destruct (readGroup (S fuel) encoded index 0 0) as [[r1 i1] |] eqn:H1;
      [| discriminate].
    destruct (readGroup (S fuel) encoded i1 0 0) as [[r2 i2] |] eqn:H2;
      [| discriminate].
    assert (Hi1 : (index < i1)%nat).
    { destruct (readGroup_total (S fuel + length encoded) encoded index 0 0
                  ltac:(lia)) as (r & i & Hr & Hlt).
      rewrite (readGroup_mono _ (S fuel + length encoded) _ _ _ _ _ H1) in Hr by lia.
      injection Hr as <- <-. exact Hlt. }
    assert (Hi2 : (i1 < i2)%nat).
    { destruct (readGroup_total (S fuel + length encoded) encoded i1 0 0
                  ltac:(lia)) as (r & i & Hr & Hlt).
      rewrite (readGroup_mono _ (S fuel + length encoded) _ _ _ _ _ H2) in Hr by lia.
      injection Hr as <- <-. exact Hlt. }
    destruct (IH _ _ _ _ _ _ Hrun) as (pts & -> & Hlen & Hnear).
    exists (mkLatLng (lat + unzigzag r1) (lng + unzigzag r2) :: pts).
    split; [rewrite <- app_assoc; reflexivity |].
    split; [cbn [length]; lia |].
    pose proof (unzigzag_range r1) as Hr1. pose proof (unzigzag_range r2) as Hr2.
    intros [| i] p Hp.
    + injection Hp as <-. unfold near. simpl. lia.
    + specialize (Hnear i p Hp). unfold near in *. simpl in Hp.
      rewrite Nat2Z.inj_succ. lia.
  - injection Hrun as <-. exists []. rewrite app_nil_r.
    split; [reflexivity |]. split; [simpl; lia |].
    intros i p Hp. rewrite lookup_nil in Hp. discriminate.
Qed.

(** X5. The decoded route has at most one point per two code units
    (rounded up), and the i-th point lies within (i+1) * 2^30 units of the
    origin in each coordinate: every delta is a halved 32-bit value.  For a
    string of fewer than 2^24 code units all coordinates therefore stay
    below 2^53 in magnitude, the range in which the additions of the
    source are exact. *)
Theorem decodePolyline_bounds (encoded : list Z) :
  exists pts,
    decodePolyline encoded = Some pts /\
    (2 * length pts <= length encoded + 1)%nat /\
    (forall i p, pts !! i = Some p -> near 0 0 (Z.of_nat i + 1) p) /\
    (Z.of_nat (length encoded) < 2 ^ 24 ->
     Forall (fun p => - 2 ^ 53 <= latitude p <= 2 ^ 53 /\
                      - 2 ^ 53 <= longitude p <= 2 ^ 53) pts).
Proof.
  destruct (decodePolyline_returns encoded) as (out & Hout & _).
  destruct (decodeLoop_bounds _ _ _ _ _ _ _ Hout) as (pts & -> & Hlen & Hnear).
  exists pts. rewrite app_nil_l in Hout.
  split; [exact Hout |]. split; [lia |]. split; [exact Hnear |].
  intros Hshort. apply Forall_lookup_2. intros i p Hp.
  pose proof (lookup_lt_Some _ _ _ Hp) as Hi.
  destruct (Hnear i p Hp) as [Hlat Hlng]. rewrite Z.sub_0_r in Hlat, Hlng.
  assert (Hsteps : Z.of_nat i + 1 <= 2 ^ 23) by lia.
  assert (Hprod : 2 ^ 30 * (Z.of_nat i + 1) <= 2 ^ 53).
  { change (2 ^ 53) with (2 ^ 30 * 2 ^ 23). apply Z.mul_le_mono_nonneg_l; lia. }
  lia.
Qed.

Lemma decodePolyline_bounds_witness :
  exists pts,
    decodePolyline (codeUnits "_p~iF~ps|U") = Some pts /\
    Forall (fun p => - 2 ^ 53 <= latitude p <= 2 ^ 53 /\
                     - 2 ^ 53 <= longitude p <= 2 ^ 53) pts.
Proof.
  destruct (decodePolyline_bounds (codeUnits "_p~iF~ps|U"))
    as (pts & Hpts & _ & _ & Hshort).
  exists pts. split; [exact Hpts |]. apply Hshort.
  simpl. lia.
Defined.

End PolylineBounds.

(** ** The route map page *)
Section RouteMapHtmlFacts.
Import Polyline RouteMapHtml.
Context {W : Type} (hasAlerts : W -> bool).

Lemma mapParts_nonempty (routeCoords : list LatLng) waypoints show :
  routeCoords <> [] ->
  exists c s f,
    routeCoords !! (length routeCoords / 2)%nat = Some c /\
    head routeCoords = Some s /\ last routeCoords = Some f /\
    mapParts hasAlerts routeCoords waypoints show
    = Returns (mkMapParts c s f routeCoords (alertMarkers hasAlerts show waypoints)).
Proof.
  intros Hne. unfold mapParts.
  assert (Hlen : (0 < length routeCoords)%nat)
    by (destruct routeCoords; [congruence | simpl; lia]).
  destruct (lookup_lt_is_Some_2 routeCoords 0 Hlen) as [s Hs].
  destruct (lookup_lt_is_Some_2 routeCoords (length routeCoords - 1) ltac:(lia))
    as [f Hf].
  assert (Hmid : (length routeCoords / 2 < length routeCoords)%nat)
    by (apply Nat.div_lt; lia).
  destruct (lookup_lt_is_Some_2 routeCoords _ Hmid) as [c Hc].
  exists c, s, f. rewrite Hs, Hf, Hc.
  split; [reflexivity |]. split; [rewrite head_lookup; exact Hs |].
  split; [| reflexivity].
  rewrite last_lookup. rewrite <- Hf. f_equal. lia.
Qed.


End RouteMapHtmlFacts.


(** ** Alert de-duplication across waypoints *)
Section FirstByIdMore.
Import Alerts.
Context {T : Type} (getId : T -> string).

Lemma firstById_app l1 : forall seen l2,
  firstById getId seen (l1 ++ l2)
  = firstById getId seen l1 ++ firstById getId ((getId <$> l1) ++ seen) l2.
Proof.
  induction l1 as [| a l1 IH]; intros seen l2; [reflexivity |].
  cbn [app firstById]. destruct (decide (getId a ∈ seen)) as [Hin | Hout].
  - rewrite IH. f_equal. apply firstById_ext. intros s.
    rewrite fmap_cons, !elem_of_app, elem_of_cons. split; [tauto |].
    intros [[-> | H] | H]; auto.
  - rewrite <- app_comm_cons, IH. f_equal. f_equal. apply firstById_ext.
    intros s. rewrite fmap_cons, !elem_of_app, !elem_of_cons. tauto.
Qed.

Lemma firstById_filter l : forall s1 s2,
  firstById getId (s1 ++ s2) l
  = filter (fun a => getId a ∉ s1) (firstById getId s2 l).
Proof.
  induction l as [| a l IH]; intros s1 s2; [reflexivity |].
  cbn [firstById].
  destruct (decide (getId a ∈ s2)) as [Hin2 | Hout2].
  - rewrite decide_True by (apply elem_of_app; auto). apply IH.
  - destruct (decide (getId a ∈ s1)) as [Hin1 | Hout1].
    + rewrite decide_True by (apply elem_of_app; auto).
      rewrite filter_cons_False by tauto.
      rewrite <- IH. apply firstById_ext. intros s.
      rewrite !elem_of_app, elem_of_cons. split; [tauto |].
      intros [H | [-> | H]]; auto.
    + rewrite decide_False by (rewrite elem_of_app; tauto).
      rewrite filter_cons_True by assumption. f_equal.
      rewrite <- IH. apply firstById_ext. intros s.
      rewrite !elem_of_cons, !elem_of_app, elem_of_cons. tauto.
Qed.

Lemma firstById_length l :
  length (firstById getId [] l) = size (list_to_set (getId <$> l) : gset string).
Proof.
  rewrite <- (length_fmap getId).
  rewrite <- (size_list_to_set (C := gset string)) by apply firstById_NoDup.
  f_equal. apply set_eq. intros s.
  rewrite !elem_of_list_to_set, firstById_ids, elem_of_nil. tauto.
Qed.

Lemma firstById_nil l : firstById getId [] l = [] <-> l = [].
Proof.
  split; [| intros ->; reflexivity].
  destruct l as [| a l]; [reflexivity |]. cbn [firstById].
  rewrite decide_False by apply not_elem_of_nil. discriminate.
Qed.

End FirstByIdMore.

Section AlertListFacts.
Import Alerts.

Lemma allAlerts_app wps1 wps2 :
  allAlerts (wps1 ++ wps2) = allAlerts wps1 ++ allAlerts wps2.
Proof. unfold allAlerts. rewrite map_app, concat_app. reflexivity. Qed.

Lemma allAlerts_nil wps :
  allAlerts wps = [] <-> Forall (fun wp => alerts wp = []) wps.
Proof.
  unfold allAlerts. induction wps as [| wp wps IH]; simpl.
  - split; [constructor | reflexivity].
  - rewrite Forall_cons. rewrite <- IH. split.
    + intros H. apply app_eq_nil in H. exact H.
    + intros [-> ->]. reflexivity.
Qed.

(** X7. The route-level list is built waypoint by waypoint: the list for
    [collected ++ more] is the list for [collected] followed by those
    entries of the list for [more] whose id does not occur in [collected];
    in particular a further waypoint appends exactly its alerts that are
    new to the route. *)
Theorem uniqueAlerts_app (collected more : list WeatherAlert)
    (wps : list WaypointWeather) (wp : WaypointWeather) :
  uniqueAlerts (collected ++ more)
  = uniqueAlerts collected
    ++ filter (fun a => id a ∉ id <$> collected) (uniqueAlerts more) /\
  uniqueAlerts (allAlerts (wps ++ [wp]))
  = uniqueAlerts (allAlerts wps)
    ++ filter (fun a => id a ∉ id <$> allAlerts wps) (uniqueAlerts (alerts wp)).
Proof.
  assert (Happ : forall l1 l2,
    uniqueAlerts (l1 ++ l2)
    = uniqueAlerts l1 ++ filter (fun a => id a ∉ id <$> l1) (uniqueAlerts l2)).
  { intros l1 l2. rewrite !uniqueAlerts_firstById, firstById_app.
    f_equal. apply firstById_filter. }
  split; [apply Happ |].
  rewrite allAlerts_app, Happ.
  replace (allAlerts [wp]) with (alerts wp)
    by (unfold allAlerts; simpl; rewrite app_nil_r; reflexivity).
  reflexivity.
Qed.

(** X8. The alert count shown on the badge and spoken in the briefing is
    the number of distinct alert ids on the route, never more than the
    number of collected alerts; the list is empty exactly when no waypoint
    carries an alert. *)
Theorem uniqueAlerts_count (wps : list WaypointWeather) :
  length (uniqueAlerts (allAlerts wps))
  = size (list_to_set (id <$> allAlerts wps) : gset string) /\
  (length (uniqueAlerts (allAlerts wps)) <= length (allAlerts wps))%nat /\
  (uniqueAlerts (allAlerts wps) = []
   <-> Forall (fun wp => alerts wp = []) wps).
Proof.
  rewrite uniqueAlerts_firstById.
  split; [apply firstById_length |].
  split; [apply sublist_length, firstById_sublist |].
  rewrite firstById_nil. apply allAlerts_nil.
Qed.

(** X9. On a list without repeated ids both de-duplications change
    nothing. *)
Theorem uniqueAlerts_no_duplicates (collected : list WeatherAlert) :
  NoDup (id <$> collected) ->
  uniqueAlerts collected = collected /\ uniqById id collected = collected.
Proof.
  intros Hnd. rewrite uniqueAlerts_firstById, uniqById_firstById.
  split; apply firstById_fixed; try assumption;
    intros s _; apply not_elem_of_nil.
Qed.

Lemma uniqueAlerts_no_duplicates_witness :
  NoDup (id <$> [mkAlert "A" "Flood" "Severe" "Flood" "text" None;
                 mkAlert "B" "Flood" "Severe" "Flood" "text" None]) /\
  uniqueAlerts [mkAlert "A" "Flood" "Severe" "Flood" "text" None;
                mkAlert "B" "Flood" "Severe" "Flood" "text" None]
  = [mkAlert "A" "Flood" "Severe" "Flood" "text" None;
     mkAlert "B" "Flood" "Severe" "Flood" "text" None].
Proof.
  assert (H : NoDup (id <$> [mkAlert "A" "Flood" "Severe" "Flood" "text" None;
                             mkAlert "B" "Flood" "Severe" "Flood" "text" None])).
  { cbn. apply NoDup_cons_2; [| apply NoDup_singleton].
    rewrite list_elem_of_singleton. discriminate. }
  split; [exact H | apply (proj1 (uniqueAlerts_no_duplicates _ H))].
Defined.

End AlertListFacts.

(** ** Ends of strings *)
Section StrEndsFacts.
Import Str StrEnds.

Lemma dropSpace_startsClean l : startsClean (dropSpace l).
Proof.
  induction l as [| a l IH]; simpl; [exact I |].
  destruct (isWhiteSpace a) eqn:E; [exact IH | exact E].
Qed.

Lemma dropSpace_id l : startsClean l -> dropSpace l = l.
Proof. destruct l as [| a l]; simpl; [reflexivity | intros ->; reflexivity]. Qed.

Lemma dropSpace_last l : dropSpace l = [] \/ last (dropSpace l) = last l.
Proof.
  induction l as [| a l IH]; simpl; [left; reflexivity |].
  destruct (isWhiteSpace a); [| right; reflexivity].
  destruct IH as [IH | IH]; [left; exact IH |].
  destruct l as [| b l]; [left; reflexivity | right].
  rewrite IH. reflexivity.
Qed.

Lemma startsClean_head l :
  startsClean l <-> forall a, head l = Some a -> isWhiteSpace a = false.
Proof.
  destruct l as [| b l]; simpl.
  - split; [intros _ a Ha; discriminate | intros _; exact I].
  - split; [intros Hb a Ha; injection Ha as <-; exact Hb | intros H; apply H; reflexivity].
Qed.

Lemma startsClean_reverse_dropSpace_reverse t :
  startsClean t -> startsClean (reverse (dropSpace (reverse t))).
Proof.
  intros Ht. apply startsClean_head. intros a Ha.
  rewrite head_reverse in Ha.
  destruct (dropSpace_last (reverse t)) as [Hnil | Hlast].
  - rewrite Hnil in Ha. discriminate.
  - rewrite Hlast, last_reverse in Ha.
    apply (proj1 (startsClean_head t) Ht a Ha).
Qed.

(** Trimming twice is trimming once. *)
Lemma trim_idempotent s : trim (trim s) = trim s.
Proof.
  unfold trim, chars, ofChars.
  rewrite String.list_ascii_of_string_of_list_ascii.
  set (t := dropSpace (String.list_ascii_of_string s)).
  assert (Ht : startsClean t) by apply dropSpace_startsClean.
  rewrite (dropSpace_id (reverse (dropSpace (reverse t))))
    by (apply startsClean_reverse_dropSpace_reverse, Ht).
  rewrite reverse_involutive.
  rewrite (dropSpace_id (dropSpace (reverse t))) by apply dropSpace_startsClean.
  reflexivity.
Qed.

End StrEndsFacts.

(** ** Recent and favourite routes of the home screen *)
Section HomeFacts.
Import StrEnds Home.

Lemma not_blank o d :
  o <> EmptyString -> d <> EmptyString ->
  bool_decide (o = EmptyString) || bool_decide (d = EmptyString) = false.
Proof.
  intros Ho Hd. rewrite !bool_decide_eq_false_2 by assumption. reflexivity.
Qed.

Lemma existsb_id sig (l : list SavedRoute) :
  existsb (fun f => String.eqb (id f) sig) l = true <-> sig ∈ id <$> l.
Proof.
  rewrite existsb_exists, list_elem_of_fmap. split.
  - intros (x & Hx & Heq). apply String.eqb_eq in Heq.
    exists x. split; [congruence | apply list_elem_of_In, Hx].
  - intros (x & -> & Hx). exists x.
    split; [apply list_elem_of_In, Hx | apply String.eqb_refl].
Qed.

Lemma filter_sublist {A} (f : A -> bool) l : List.filter f l `sublist_of` l.
Proof.
  induction l as [| a l IH]; simpl; [constructor |].
  destruct (f a); [apply sublist_skip | apply sublist_cons]; exact IH.
Qed.

Lemma filter_all {A} (f : A -> bool) l :
  (forall x, x ∈ l -> f x = true) -> List.filter f l = l.
Proof.
  induction l as [| a l IH]; intros H; simpl; [reflexivity |].
  rewrite (H a) by (apply elem_of_cons; auto).
  f_equal. apply IH. intros x Hx. apply H, elem_of_cons. auto.
Qed.

Lemma filter_removes_id sig (l : list SavedRoute) :
  sig ∉ id <$> List.filter (fun f => negb (String.eqb (id f) sig)) l.
Proof.
  rewrite list_elem_of_fmap. intros (x & -> & Hx).
  apply list_elem_of_In, filter_In in Hx as [_ Hx].
  rewrite String.eqb_refl in Hx. discriminate.
Qed.

Lemma uniqById_cons (r : SavedRoute) l :
  Alerts.uniqById id (r :: l) = r :: Alerts.firstById id [id r] l.
Proof.
  rewrite uniqById_firstById. cbn [Alerts.firstById].
  rewrite decide_False by apply not_elem_of_nil. reflexivity.
Qed.

Lemma NoDup_ids_sublist (l1 l2 : list SavedRoute) :
  l1 `sublist_of` l2 -> NoDup (id <$> l2) -> NoDup (id <$> l1).
Proof.
  intros Hsub Hnd.
  pose proof (fmap_sublist id _ _ Hsub) as Hids.
  eauto using sublist_NoDup.
Qed.

(** X10. Checking a route with a non-blank origin and destination puts
    the new draft at the head of the recent routes, keeps at most ten of
    them, all with different ids, and keeps the older entries in their
    order. *)
Theorem onCheckRoute_recents (newId now origin destination : string)
    (stops : list StopPoint) (recents : list SavedRoute) :
  trim origin <> EmptyString -> trim destination <> EmptyString ->
  head (onCheckRoute newId now origin destination stops recents)
  = Some (buildDraft newId now origin destination stops) /\
  (length (onCheckRoute newId now origin destination stops recents) <= 10)%nat /\
  NoDup (id <$> onCheckRoute newId now origin destination stops recents) /\
  tail (onCheckRoute newId now origin destination stops recents)
    `sublist_of` recents.
Proof.
  intros Ho Hd. unfold onCheckRoute. cbv zeta.
  rewrite (not_blank _ _ Ho Hd), uniqById_cons.
  set (draft := buildDraft newId now origin destination stops).
  change (take 10 (draft :: Alerts.firstById id [id draft] recents))
    with (draft :: take 9 (Alerts.firstById id [id draft] recents)).
  split; [reflexivity |].
  split; [cbn [length]; rewrite length_take; lia |].
  split.
  - change (draft :: take 9 (Alerts.firstById id [id draft] recents))
      with (take 10 (draft :: Alerts.firstById id [id draft] recents)).
    rewrite <- uniqById_cons, uniqById_firstById.
    apply (NoDup_ids_sublist _ (Alerts.firstById id [] (draft :: recents)));
      [apply sublist_take | apply firstById_NoDup].
  - cbn [tail]. transitivity (Alerts.firstById id [id draft] recents);
      [apply sublist_take | apply firstById_sublist].
Qed.

(** X11. Tapping the heart flips membership: after the call the signature
    of the current route is among the favourite ids exactly when it was
    not before. *)
Theorem onToggleFavoriteCurrent_flips (now origin destination : string)
    (stops : list StopPoint) (favorites : list SavedRoute) :
  trim origin <> EmptyString -> trim destination <> EmptyString ->
  (signatureId origin destination stops
     ∈ id <$> onToggleFavoriteCurrent now origin destination stops favorites
   <-> signatureId origin destination stops ∉ id <$> favorites).
Proof.
  intros Ho Hd. unfold onToggleFavoriteCurrent. cbv zeta.
  rewrite (not_blank _ _ Ho Hd).
  set (sig := signatureId origin destination stops).
  destruct (existsb (fun f => String.eqb (id f) sig) favorites) eqn:E.
  - apply existsb_id in E. split; [| contradiction].
    intros H. exfalso. apply (filter_removes_id sig favorites H).
  - assert (Hout : sig ∉ id <$> favorites).
    { intros H. apply existsb_id in H. congruence. }
    split; [intros _; exact Hout | intros _].
    rewrite uniqById_cons. cbn [take fmap list_fmap].
    apply list_elem_of_here.
Qed.

(** X12. Tapping the heart twice restores the favourites, when they had
    different ids, fewer than 25 entries and did not hold the current
    route. *)
Theorem onToggleFavoriteCurrent_twice (now now' origin destination : string)
    (stops : list StopPoint) (favorites : list SavedRoute) :
  trim origin <> EmptyString -> trim destination <> EmptyString ->
  NoDup (id <$> favorites) -> (length favorites < 25)%nat ->
  signatureId origin destination stops ∉ id <$> favorites ->
  onToggleFavoriteCurrent now' origin destination stops
    (onToggleFavoriteCurrent now origin destination stops favorites)
  = favorites.
Proof.
  intros Ho Hd Hnd Hlen Hout.
  assert (Hfirst : onToggleFavoriteCurrent now origin destination stops favorites
                   = newFavorite now origin destination stops :: favorites).
  { unfold onToggleFavoriteCurrent. cbv zeta. rewrite (not_blank _ _ Ho Hd).
    destruct (existsb _ favorites) eqn:E; [apply existsb_id in E; contradiction |].
    rewrite uniqById_cons.
    rewrite (firstById_fixed id favorites [_] Hnd).
    - apply take_ge. simpl. lia.
    - intros s Hs. rewrite list_elem_of_singleton. intros ->. contradiction. }
  rewrite Hfirst. unfold onToggleFavoriteCurrent at 1. cbv zeta.
  rewrite (not_blank _ _ Ho Hd).
  cbn [existsb List.filter].
  change (id (newFavorite now origin destination stops))
    with (signatureId origin destination stops).
  rewrite String.eqb_refl. cbn [orb negb].
  apply filter_all. intros x Hx. apply negb_true_iff, String.eqb_neq.
  intros Heq. apply Hout. rewrite <- Heq. apply list_elem_of_fmap_2, Hx.
Qed.

(** X13. The favourites keep their invariant: if their ids were different
    they still are after a tap; a tap that adds leaves at most 25 entries
    with the new favourite first; a tap that removes leaves a sublist. *)
Theorem onToggleFavoriteCurrent_invariant (now origin destination : string)
    (stops : list StopPoint) (favorites : list SavedRoute) :
  NoDup (id <$> favorites) ->
  NoDup (id <$> onToggleFavoriteCurrent now origin destination stops favorites) /\
  (onToggleFavoriteCurrent now origin destination stops favorites
     `sublist_of` favorites \/
   (length (onToggleFavoriteCurrent now origin destination stops favorites) <= 25)%nat /\
   head (onToggleFavoriteCurrent now origin destination stops favorites)
   = Some (newFavorite now origin destination stops)).
Proof.
  intros Hnd. unfold onToggleFavoriteCurrent. cbv zeta.
  destruct (bool_decide _ || bool_decide _); [split; [exact Hnd | left; reflexivity] |].
  destruct (existsb _ favorites).
  - split; [| left; apply filter_sublist].
    apply (NoDup_ids_sublist _ favorites); [apply filter_sublist | exact Hnd].
  - split.
    + rewrite uniqById_firstById.
      apply (NoDup_ids_sublist _ (Alerts.firstById id []
               (newFavorite now origin destination stops :: favorites)));
        [apply sublist_take | apply firstById_NoDup].
    + right. rewrite uniqById_cons. split; [| reflexivity].
      rewrite length_take. lia.
Qed.

End HomeFacts.

Lemma onCheckRoute_recents_witness :
  head (Home.onCheckRoute "id-1" "2026-01-01T00:00:00.000Z" " Denver " "Cheyenne" [] [])
  = Some (Home.buildDraft "id-1" "2026-01-01T00:00:00.000Z" " Denver " "Cheyenne" []).
Proof.
  apply (onCheckRoute_recents "id-1" "2026-01-01T00:00:00.000Z" " Denver " "Cheyenne" [] []);
    vm_compute; discriminate.
Defined.

Lemma onToggleFavoriteCurrent_flips_witness :
  Home.signatureId "Denver" "Cheyenne" []
    ∈ Home.id <$> Home.onToggleFavoriteCurrent "2026-01-01T00:00:00.000Z"
                    "Denver" "Cheyenne" [] [].
Proof.
  apply (onToggleFavoriteCurrent_flips "2026-01-01T00:00:00.000Z" "Denver" "Cheyenne" [] []);
    [vm_compute; discriminate | vm_compute; discriminate |].
  rewrite fmap_nil. apply not_elem_of_nil.
Defined.

Lemma onToggleFavoriteCurrent_twice_witness :
  Home.onToggleFavoriteCurrent "2026-01-02T00:00:00.000Z" "Denver" "Cheyenne" []
    (Home.onToggleFavoriteCurrent "2026-01-01T00:00:00.000Z" "Denver" "Cheyenne" [] [])
  = [].
Proof.
  apply (onToggleFavoriteCurrent_twice "2026-01-01T00:00:00.000Z"
           "2026-01-02T00:00:00.000Z" "Denver" "Cheyenne" [] []).
  - vm_compute; discriminate.
  - vm_compute; discriminate.
  - rewrite fmap_nil. apply NoDup_nil_2.
  - simpl. lia.
  - rewrite fmap_nil. apply not_elem_of_nil.
Defined.

Lemma onToggleFavoriteCurrent_invariant_witness :
  NoDup (Home.id <$> Home.onToggleFavoriteCurrent "2026-01-01T00:00:00.000Z"
                       "Denver" "Cheyenne" [] []).
Proof.
  apply (onToggleFavoriteCurrent_invariant "2026-01-01T00:00:00.000Z"
           "Denver" "Cheyenne" [] []).
  rewrite fmap_nil. apply NoDup_nil_2.
Defined.

(** ** Stops of a saved route *)
Section CleanedStops.
Import StrEnds Home.

Lemma orElse_nonempty s d : d <> EmptyString -> orElse s d <> EmptyString.
Proof. intros Hd. unfold orElse. destruct (decide (s = EmptyString)); assumption. Qed.

Lemma length_pos (s : string) :
  (0 <? String.length s)%nat = true <-> s <> EmptyString.
Proof.
  destruct s; simpl; split; try congruence; try discriminate.
  - intros _. reflexivity.
Qed.

Lemma cleanStop_type s :
  type (cleanStop s) <> EmptyString /\ trim (type (cleanStop s)) = type (cleanStop s).
Proof.
  unfold cleanStop. cbn [type]. split; [apply orElse_nonempty; discriminate |].
  unfold orElse at 1 3.
  destruct (decide (trim (orElse (type s) "stop") = EmptyString));
    [reflexivity | apply trim_idempotent].
Qed.

Lemma cleanStop_fixed s : cleanStopShape s -> cleanStop s = s.
Proof.
  intros (Hl & Hlt & Ht & Htt). destruct s as [l t]. simpl in *.
  unfold cleanStop, orElse. simpl.
  rewrite (decide_False (P := l = EmptyString)) by assumption.
  rewrite (decide_False (P := t = EmptyString)) by assumption.
  rewrite Hlt, Htt.
  rewrite (decide_False (P := t = EmptyString)) by assumption. reflexivity.
Qed.

(** X14. The stops saved with a route are clean: each has a non-empty,
    trimmed location and a non-empty, trimmed type; none is added; and
    cleaning clean stops changes nothing. *)
Theorem cleanedStops_clean (stops : list StopPoint) :
  Forall cleanStopShape (cleanedStops stops) /\
  (length (cleanedStops stops) <= length stops)%nat /\
  cleanedStops (cleanedStops stops) = cleanedStops stops.
Proof.
  assert (Hclean : Forall cleanStopShape (cleanedStops stops)).
  { unfold cleanedStops. apply Forall_forall. intros s Hs.
    apply list_elem_of_In, filter_In in Hs as [Hs Hlen].
    apply in_map_iff in Hs as (s0 & <- & _).
    apply length_pos in Hlen.
    destruct (cleanStop_type s0) as [Ht Htt].
    split; [exact Hlen |]. split; [| split; [exact Ht | exact Htt]].
    unfold cleanStop. cbn [location]. apply trim_idempotent. }
  split; [exact Hclean |]. split.
  - unfold cleanedStops. rewrite <- (length_map cleanStop stops).
    apply sublist_length, filter_sublist.
  - induction Hclean as [| s l Hs _ IH]; [reflexivity |].
    unfold cleanedStops in *. cbn [map List.filter].
    rewrite (cleanStop_fixed s Hs).
    destruct Hs as (Hl & _). apply length_pos in Hl. rewrite Hl.
    f_equal. exact IH.
Qed.

End CleanedStops.

(** ** Road-surface classification: letter case, cold labels, hazard *)
Section RoadSurfaceMore.
Import Str RoadSurface.

Lemma lowerChar_idempotent a : lowerChar (lowerChar a) = lowerChar a.
Proof. destruct a as [[] [] [] [] [] [] [] []]; reflexivity. Qed.

Lemma toLowerCase_idempotent s : toLowerCase (toLowerCase s) = toLowerCase s.
Proof.
  induction s as [| a s IH]; simpl; [reflexivity |].
  rewrite lowerChar_idempotent, IH. reflexivity.
Qed.

(** X15. The classification does not depend on the letter case of the
    conditions text: lower-casing the text of a snapshot leaves the whole
    result unchanged. *)
Theorem roadCondition_case_insensitive (t : option Q) (c : string)
    (wind : option string) (h : option Q) (alerts : list WeatherAlert) :
  roadCondition
    (mkWaypointWeather (Some (mkWeather t (Some (toLowerCase c)) wind h)) alerts)
  = roadCondition (mkWaypointWeather (Some (mkWeather t (Some c) wind h)) alerts).
Proof.
  unfold roadCondition, conditionsText, temp, windSpeed, hasAlert, alertDesc.
  cbn [weather conditions temperature wind_speed RoadSurface.alerts default
       from_option id].
  rewrite toLowerCase_idempotent. reflexivity.
Qed.

Lemma label_cases (wp : WaypointWeather) :
  let c := conditionsText wp in
  let rc := roadCondition wp in
  (hasAlert wp = true /\ condLabel rc = "HAZARD") \/
  (hasAlert wp = false /\ Qle_bool (temp wp) 32 = true
   /\ (condLabel rc = "ICY" \/ condLabel rc = "SNOW")) \/
  (hasAlert wp = false /\ Qle_bool (temp wp) 32 = false
   /\ Qle_bool (temp wp) 40 = true /\ condLabel rc = "SLUSH") \/
  (hasAlert wp = false
   /\ (condLabel rc = "FOG" \/ condLabel rc = "WET" \/ condLabel rc = "STORM"
       \/ condLabel rc = "WINDY" \/ condLabel rc = "DRY")).
Proof.
  cbv zeta. unfold roadCondition.
  destruct (hasAlert wp); [left; split; reflexivity | right].
  destruct (Qle_bool (temp wp) 32) eqn:E32; cbn [andb negb].
  - destruct (includes (conditionsText wp) "rain"
              || includes (conditionsText wp) "freezing"
              || includes (conditionsText wp) "drizzle") eqn:Eice.
    + left. repeat split. left. reflexivity.
    + destruct (includes (conditionsText wp) "snow").
      * left. repeat split. right. reflexivity.
      * right. right. split; [reflexivity |].
        rewrite orb_false_iff in Eice. destruct Eice as [Eice Edr].
        rewrite orb_false_iff in Eice. destruct Eice as [Erain Efr].
        rewrite Erain, Edr. cbn [orb].
        destruct (includes (conditionsText wp) "fog" || includes (conditionsText wp) "mist");
          [auto |].
        destruct (includes (conditionsText wp) "shower"); [auto |].
        destruct (includes (conditionsText wp) "thunder" || includes (conditionsText wp) "storm");
          [auto 6 |].
        destruct (gt (windSpeed wp) 30); auto 8.
  - destruct (Qle_bool (temp wp) 40 && includes (conditionsText wp) "snow") eqn:Eslush.
    + right. left. apply andb_true_iff in Eslush as [E40 _]. auto.
    + right. right. split; [reflexivity |].
      destruct (includes (conditionsText wp) "fog" || includes (conditionsText wp) "mist");
        [auto |].
      destruct (includes (conditionsText wp) "rain" || includes (conditionsText wp) "shower"
                || includes (conditionsText wp) "drizzle"); [auto |].
      destruct (includes (conditionsText wp) "thunder" || includes (conditionsText wp) "storm");
        [auto 6 |].
      destruct (gt (windSpeed wp) 30); auto 8.
Qed.

Lemma temp_cold (wp : WaypointWeather) :
  Qle_bool (temp wp) 40 = true ->
  exists w t, weather wp = Some w /\ temperature w = Some t /\
              Qeq_bool t 0 = false /\ temp wp = t.
Proof.
  unfold temp. destruct (weather wp) as [w |]; [| discriminate].
  destruct (temperature w) as [t |] eqn:Ht; [| discriminate].
  destruct (Qeq_bool t 0) eqn:E0; [discriminate |].
  intros _. exists w, t. repeat split; assumption.
Qed.

(** X16. Ice, snow and slush are reported only on a recorded temperature:
    the label ICY or SNOW means that the waypoint has no alert and its
    snapshot holds a temperature of at most 32 that is not 0; the label
    SLUSH means a temperature above 32 and of at most 40. *)
Theorem cold_labels_need_cold (wp : WaypointWeather) :
  (condLabel (roadCondition wp) = "ICY" \/ condLabel (roadCondition wp) = "SNOW" ->
   alerts wp = [] /\
   exists w t, weather wp = Some w /\ temperature w = Some t /\
               (t <= 32)%Q /\ ~ (t == 0)%Q) /\
  (condLabel (roadCondition wp) = "SLUSH" ->
   alerts wp = [] /\
   exists w t, weather wp = Some w /\ temperature w = Some t /\
               ~ (t <= 32)%Q /\ (t <= 40)%Q).
Proof.
  assert (Hno : hasAlert wp = false -> alerts wp = []).
  { unfold hasAlert. destruct (alerts wp); [reflexivity | discriminate]. }
  pose proof (label_cases wp) as Hcases. cbv zeta in Hcases.
  split; intros Hlabel.
  - destruct Hcases as [[_ H] | [(Ha & H32 & _) | [(_ & _ & _ & H) | [_ H]]]];
      try (destruct Hlabel as [Hl | Hl]; rewrite Hl in H;
           repeat (destruct H as [H | H]; try discriminate); discriminate).
    split; [apply Hno, Ha |].
    assert (H40 : Qle_bool (temp wp) 40 = true).
    { apply Qle_bool_iff. apply Qle_bool_iff in H32.
      apply Qle_trans with (y := 32%Q); [exact H32 | discriminate]. }
    destruct (temp_cold wp H40) as (w & t & Hw & Ht & H0 & Htemp).
    exists w, t. rewrite Htemp in H32.
    split; [exact Hw |]. split; [exact Ht |].
    split; [apply Qle_bool_iff, H32 |].
    intros Hz. apply Qeq_bool_iff in Hz. congruence.
  - destruct Hcases as [[_ H] | [(_ & _ & H) | [(Ha & H32 & H40 & _) | [_ H]]]];
      try (rewrite Hlabel in H;
           repeat (destruct H as [H | H]; try discriminate); discriminate).
    split; [apply Hno, Ha |].
    destruct (temp_cold wp H40) as (w & t & Hw & Ht & H0 & Htemp).
    exists w, t. rewrite Htemp in H32, H40.
    split; [exact Hw |]. split; [exact Ht |].
    split; [| apply Qle_bool_iff, H40].
    intros Hle. apply Qle_bool_iff in Hle. congruence.
Qed.

(** X17. The label is HAZARD exactly when the waypoint carries an alert,
    and it is always one of the nine labels of the conditions tab. *)
Theorem hazard_iff_alert (wp : WaypointWeather) :
  (condLabel (roadCondition wp) = "HAZARD" <-> alerts wp <> []) /\
  exists c, categoryOf (condLabel (roadCondition wp)) = Some c.
Proof.
  assert (Hyes : hasAlert wp = true <-> alerts wp <> []).
  { unfold hasAlert. destruct (alerts wp); cbn; split; intros H;
      try reflexivity; try discriminate; exfalso; apply H; reflexivity. }
  pose proof (label_cases wp) as Hcases. cbv zeta in Hcases.
  split.
  - split.
    + intros Hlabel. apply Hyes.
      destruct Hcases as [[Ha _] | [(_ & _ & H) | [(_ & _ & _ & H) | [_ H]]]];
        [exact Ha | | |];
        rewrite Hlabel in H;
        repeat (destruct H as [H | H]; try discriminate); discriminate.
    + intros Hne. apply (proj2 Hyes) in Hne.
      destruct Hcases as [[_ H] | [(Ha & _) | [(Ha & _) | [Ha _]]]];
        [exact H | congruence..].
  - destruct Hcases as [[_ H] | [(_ & _ & H) | [(_ & _ & _ & H) | [_ H]]]];
      repeat (destruct H as [H | H]); rewrite H; eexists; reflexivity.
Qed.

End RoadSurfaceMore.

Lemma cold_labels_need_cold_witness :
  RoadSurface.alerts
    (RoadSurface.mkWaypointWeather
       (Some (RoadSurface.mkWeather (Some 28%Q) (Some "Light Rain") None None)) [])
  = [].
Proof.
  apply (proj1 (cold_labels_need_cold
                  (RoadSurface.mkWaypointWeather
                     (Some (RoadSurface.mkWeather (Some 28%Q) (Some "Light Rain") None None))
                     []))).
  left. reflexivity.
Defined.

(** ** Durations *)
Section DurationFacts.
Import StrEnds Durations.

Lemma chars_app s1 s2 : chars (s1 +:+ s2) = chars s1 ++ chars s2.
Proof. induction s1 as [| a s1 IH]; simpl; [reflexivity | f_equal; exact IH]. Qed.

Lemma chars_inj s1 s2 : chars s1 = chars s2 -> s1 = s2.
Proof.
  intros H. rewrite <- (String.string_of_list_ascii_of_string s1),
    <- (String.string_of_list_ascii_of_string s2).
  unfold chars in H. rewrite H. reflexivity.
Qed.

Lemma pretty_N_char_digit x : isDigit (pretty_N_char x) = true.
Proof. unfold pretty_N_char. repeat case_match; reflexivity. Qed.

Lemma pretty_N_go_digits x : forall s,
  exists d, chars (pretty_N_go x s) = d ++ chars s /\
            Forall (fun a => isDigit a = true) d /\
            ((0 < x)%N -> d <> []).
Proof.
  induction (N.lt_wf_0 x) as [x _ IH]. intros s.
  destruct (decide (x = 0)%N) as [-> | Hx].
  - exists []. rewrite pretty_N_go_0. split; [reflexivity |].
    split; [constructor | lia].
  - rewrite pretty_N_go_step by lia.
    destruct (IH (x `div` 10)%N ltac:(apply N.div_lt; lia)
                (String (pretty_N_char (x `mod` 10)) s)) as (d & Hd & Hall & _).
    exists (d ++ [pretty_N_char (x `mod` 10)]).
    split; [rewrite Hd, <- app_assoc; reflexivity |].
    split.
    + apply Forall_app. split; [exact Hall |].
      constructor; [apply pretty_N_char_digit | constructor].
    + intros _ Hnil. apply app_eq_nil in Hnil as [_ Hnil]. discriminate.
Qed.

Lemma pretty_Z_digits z :
  0 <= z ->
  Forall (fun a => isDigit a = true) (chars (pretty z)) /\ chars (pretty z) <> [].
Proof.
  intros Hz. destruct z as [| p | p]; [| | lia].
  - split; [repeat constructor | discriminate].
  - change (pretty (Z.pos p)) with (pretty (N.pos p)).
    unfold pretty, pretty_N. rewrite decide_False by discriminate.
    destruct (pretty_N_go_digits (N.pos p) EmptyString) as (d & Hd & Hall & Hne).
    simpl in Hd. rewrite app_nil_r in Hd. rewrite Hd.
    split; [exact Hall | apply Hne; lia].
Qed.

Lemma digits_then_other d1 : forall d2 (a b : ascii) r1 r2,
  Forall (fun a => isDigit a = true) d1 ->
  Forall (fun a => isDigit a = true) d2 ->
  isDigit a = false -> isDigit b = false ->
  d1 ++ a :: r1 = d2 ++ b :: r2 ->
  d1 = d2 /\ a = b /\ r1 = r2.
Proof.
  induction d1 as [| x d1 IH]; intros d2 a b r1 r2 H1 H2 Ha Hb Heq.
  - destruct d2 as [| y d2]; simpl in Heq.
    + injection Heq as -> ->. auto.
    + injection Heq as -> _. apply Forall_cons in H2 as [Hy _]. congruence.
  - apply Forall_cons in H1 as [Hx H1].
    destruct d2 as [| y d2]; simpl in Heq.
    + injection Heq as -> _. congruence.
    + injection Heq as -> Heq. apply Forall_cons in H2 as [_ H2].
      destruct (IH d2 a b r1 r2 H1 H2 Ha Hb Heq) as (-> & -> & ->). auto.
Qed.

(** A number followed by a character that is no digit can be read back. *)
Lemma pretty_then_other x y (a b : ascii) r1 r2 :
  0 <= x -> 0 <= y -> isDigit a = false -> isDigit b = false ->
  chars (pretty x) ++ a :: r1 = chars (pretty y) ++ b :: r2 ->
  x = y /\ a = b /\ r1 = r2.
Proof.
  intros Hx Hy Ha Hb Heq.
  destruct (pretty_Z_digits x Hx) as [Dx _].
  destruct (pretty_Z_digits y Hy) as [Dy _].
  destruct (digits_then_other _ _ _ _ _ _ Dx Dy Ha Hb Heq) as (Hd & -> & ->).
  split; [| auto]. apply (inj pretty), chars_inj, Hd.
Qed.

Lemma rem_nonneg m : 0 <= m -> Z.rem m 60 = m mod 60.
Proof. intros Hm. apply Z.rem_mod_nonneg; lia. Qed.

(** X18. On whole, non-negative minutes the duration text of the route
    conditions screen can be read back: two different durations are never
    shown alike. *)
Theorem formatDuration_injective (m1 m2 : Z) :
  0 <= m1 -> 0 <= m2 -> formatDuration m1 = formatDuration m2 -> m1 = m2.
Proof.
  intros H1 H2 Heq. apply (f_equal chars) in Heq.
  unfold formatDuration in Heq. cbv zeta in Heq.
  rewrite !rem_nonneg in Heq by assumption.
  pose proof (Z.div_mod m1 60 ltac:(lia)) as D1.
  pose proof (Z.div_mod m2 60 ltac:(lia)) as D2.
  pose proof (Z.mod_pos_bound m1 60 ltac:(lia)) as R1.
  pose proof (Z.mod_pos_bound m2 60 ltac:(lia)) as R2.
  pose proof (Z.div_pos m1 60 H1 ltac:(lia)) as Q1.
  pose proof (Z.div_pos m2 60 H2 ltac:(lia)) as Q2.
  set (h1 := m1 / 60) in *. set (r1 := m1 mod 60) in *.
  set (h2 := m2 / 60) in *. set (r2 := m2 mod 60) in *.
  destruct (h1 =? 0) eqn:E1; destruct (h2 =? 0) eqn:E2;
    [| destruct (0 <? r2) eqn:P2 | destruct (0 <? r1) eqn:P1
     | destruct (0 <? r1) eqn:P1; destruct (0 <? r2) eqn:P2];
    rewrite ?Z.eqb_eq, ?Z.eqb_neq, ?Z.ltb_lt, ?Z.ltb_ge in *;
    rewrite !chars_app in Heq; cbn [chars String.list_ascii_of_string app] in Heq;
    fold (chars (pretty h1)) (chars (pretty h2))
         (chars (pretty r1)) (chars (pretty r2)) in Heq.
  - apply pretty_then_other in Heq as (Hr & _);
      [| lia | lia | reflexivity | reflexivity]. lia.
  - apply pretty_then_other in Heq as (_ & Hc & _);
      [| lia | lia | reflexivity | reflexivity]. discriminate.
  - apply pretty_then_other in Heq as (_ & Hc & _);
      [| lia | lia | reflexivity | reflexivity]. discriminate.
  - apply pretty_then_other in Heq as (_ & Hc & _);
      [| lia | lia | reflexivity | reflexivity]. discriminate.
  - apply pretty_then_other in Heq as (_ & Hc & _);
      [| lia | lia | reflexivity | reflexivity]. discriminate.
  - apply pretty_then_other in Heq as (Hh & _ & Hrest);
      [| lia | lia | reflexivity | reflexivity].
    injection Hrest as Hrest.
    apply pretty_then_other in Hrest as (Hr & _);
      [| lia | lia | reflexivity | reflexivity]. lia.
  - apply pretty_then_other in Heq as (_ & _ & Hrest);
      [| lia | lia | reflexivity | reflexivity]. discriminate.
  - apply pretty_then_other in Heq as (_ & _ & Hrest);
      [| lia | lia | reflexivity | reflexivity]. discriminate.
  - apply pretty_then_other in Heq as (Hh & _);
      [| lia | lia | reflexivity | reflexivity]. lia.
Qed.

End DurationFacts.

Lemma formatDuration_injective_witness : 125 = 125.
Proof.
  apply (formatDuration_injective 125 125); [lia | lia | reflexivity].
Defined.

(** ** Durations on the route screen *)
Section RouteDurationFacts.
Import StrEnds RouteDurations.

Lemma inject_Z_gap (a b : Z) : (inject_Z a < inject_Z b + 1)%Q -> a <= b.
Proof.
  intros H. destruct (Z_le_gt_dec a b) as [| Hgt]; [assumption | exfalso].
  assert (Hle : b + 1 <= a) by lia.
  rewrite Zle_Qle, inject_Z_plus in Hle. change (inject_Z 1) with 1%Q in Hle. lra.
Qed.

(** The two numbers shown for non-negative minutes. *)
Lemma formatDuration_parts (minutes : Q) :
  (0 <= minutes)%Q ->
  exists h r : Z,
    formatDuration minutes = pretty h +:+ "h " +:+ pretty r +:+ "m" /\
    0 <= h /\ 0 <= r <= 60 /\
    (minutes - (1 # 2) < inject_Z (60 * h + r) <= minutes + (1 # 2))%Q /\
    (r = 60 <-> (inject_Z (60 * h) + (119 # 2) <= minutes)%Q) /\
    (forall k : Z, minutes == inject_Z k -> 60 * h + r = k /\ r < 60).
Proof.
  intros Hm.
  set (q := (minutes / 60)%Q).
  assert (Hq : (60 * q == minutes)%Q) by (apply Qmult_div_r; discriminate).
  assert (Hq0 : (0 <= q)%Q) by lra.
  set (h := Qfloor q).
  pose proof (Qfloor_le q) as Hlo. pose proof (Qlt_floor q) as Hhi.
  fold h in Hlo, Hhi. rewrite inject_Z_plus in Hhi.
  change (inject_Z 1) with 1%Q in Hhi.
  assert (Hh : 0 <= h) by apply (Qfloor_resp_le 0 q Hq0).
  assert (Htr : Math_trunc q = h).
  { unfold Math_trunc. apply Qle_bool_iff in Hq0. rewrite Hq0. reflexivity. }
  set (x := (remainder minutes 60 + (1 # 2))%Q).
  assert (Hx : (x == minutes - 60 * inject_Z h + (1 # 2))%Q).
  { unfold x, remainder. fold q. rewrite Htr. reflexivity. }
  set (r := Qfloor x).
  pose proof (Qfloor_le x) as Rlo. pose proof (Qlt_floor x) as Rhi.
  fold r in Rlo, Rhi. rewrite inject_Z_plus in Rhi.
  change (inject_Z 1) with 1%Q in Rhi.
  assert (Hr0 : 0 <= r) by (apply (Qfloor_resp_le 0 x); lra).
  assert (Hr60 : r <= 60).
  { apply inject_Z_gap. change (inject_Z 60) with 60%Q. lra. }
  assert (Hsum : (inject_Z (60 * h + r) == 60 * inject_Z h + inject_Z r)%Q).
  { rewrite inject_Z_plus, inject_Z_mult. reflexivity. }
  assert (H60 : (inject_Z (60 * h) == 60 * inject_Z h)%Q).
  { rewrite inject_Z_mult. reflexivity. }
  exists h, r. split; [reflexivity |].
  split; [exact Hh |]. split; [lia |]. split; [lra |]. split.
  - split.
    + intros E. rewrite E in Rlo. change (inject_Z 60) with 60%Q in Rlo. lra.
    + intros E. assert (60 <= r); [| lia].
      apply (Qfloor_resp_le 60 x). lra.
  - intros k Hk.
    assert (Hle : 60 * h + r <= k) by (apply inject_Z_gap; lra).
    assert (Hge : k <= 60 * h + r) by (apply inject_Z_gap; lra).
    split; [lia |].
    destruct (Z.eq_dec r 60) as [E |]; [exfalso | lia].
    assert (Hk' : (inject_Z k == 60 * inject_Z h + 60)%Q).
    { replace k with (60 * h + r) by lia. rewrite Hsum, E. reflexivity. }
    lra.
Qed.

(** X19. The "h m" text of the route screen, on non-negative minutes that
    may have a fraction: it shows two numbers [h] and [r] with [0 <= h] and
    [0 <= r <= 60] whose total [60 h + r] lies within half a minute of the
    minutes.  The minute field reads 60, without a carry into the hours,
    exactly when the minutes are within half a minute below a full hour.
    On whole minutes the total is exact and [r < 60], and two different
    whole durations are never shown alike. *)
Theorem formatDuration_half_minute (minutes : Q) (k1 k2 : Z) :
  ((0 <= minutes)%Q ->
   exists h r : Z,
     formatDuration minutes = pretty h +:+ "h " +:+ pretty r +:+ "m" /\
     0 <= h /\ 0 <= r <= 60 /\
     (minutes - (1 # 2) < inject_Z (60 * h + r) <= minutes + (1 # 2))%Q /\
     (r = 60 <-> (inject_Z (60 * h) + (119 # 2) <= minutes)%Q) /\
     (forall k : Z, minutes == inject_Z k -> 60 * h + r = k /\ r < 60)) /\
  (0 <= k1 -> 0 <= k2 ->
   formatDuration (inject_Z k1) = formatDuration (inject_Z k2) -> k1 = k2).
Proof.
  split; [apply formatDuration_parts |].
  intros H1 H2 Heq.
  destruct (formatDuration_parts (inject_Z k1)) as (h1 & r1 & T1 & P1 & R1 & _ & _ & W1).
  { change (inject_Z 0 <= inject_Z k1)%Q. rewrite <- Zle_Qle. exact H1. }
  destruct (formatDuration_parts (inject_Z k2)) as (h2 & r2 & T2 & P2 & R2 & _ & _ & W2).
  { change (inject_Z 0 <= inject_Z k2)%Q. rewrite <- Zle_Qle. exact H2. }
  destruct (W1 k1 ltac:(reflexivity)) as [E1 _].
  destruct (W2 k2 ltac:(reflexivity)) as [E2 _].
  rewrite T1, T2 in Heq. apply (f_equal chars) in Heq.
  rewrite !chars_app in Heq. cbn [chars String.list_ascii_of_string app] in Heq.
  fold (chars (pretty h1)) (chars (pretty h2))
       (chars (pretty r1)) (chars (pretty r2)) in Heq.
  apply pretty_then_other in Heq as (Hh & _ & Hrest);
    [| lia | lia | reflexivity | reflexivity].
  injection Hrest as Hrest.
  apply pretty_then_other in Hrest as (Hr & _);
    [| lia | lia | reflexivity | reflexivity]. lia.
Qed.

End RouteDurationFacts.

Lemma formatDuration_half_minute_witness :
  exists h r : Z,
    RouteDurations.formatDuration (596 # 10)
    = pretty h +:+ "h " +:+ pretty r +:+ "m" /\
    0 <= h /\ 0 <= r <= 60 /\
    ((596 # 10) - (1 # 2) < inject_Z (60 * h + r) <= (596 # 10) + (1 # 2))%Q /\
    (r = 60 <-> (inject_Z (60 * h) + (119 # 2) <= 596 # 10)%Q) /\
    (forall k : Z, 596 # 10 == inject_Z k -> 60 * h + r = k /\ r < 60).
Proof.
  apply (proj1 (formatDuration_half_minute (596 # 10) 0 0)).
  unfold Qle. simpl. lia.
Defined.

(** ** The local route store *)
Section RouteStoreFacts.
Import Str StrEnds RouteStore.

Lemma sameRoute_key a b : sameRoute a b = true <-> routeKey a = routeKey b.
Proof.
  unfold sameRoute, routeKey. rewrite andb_true_iff, !String.eqb_eq.
  split; [intros [-> ->]; reflexivity | intros [= -> ->]; auto].
Qed.

Lemma sameRoute_key_false a b : sameRoute a b = false <-> routeKey a <> routeKey b.
Proof.
  rewrite <- sameRoute_key. destruct (sameRoute a b); split; congruence.
Qed.

Lemma existsb_same r l :
  existsb (fun f => sameRoute f r) l = true <-> routeKey r ∈ routeKey <$> l.
Proof.
  rewrite existsb_exists, list_elem_of_fmap. split.
  - intros (x & Hx & Heq). apply sameRoute_key in Heq.
    exists x. split; [congruence | apply list_elem_of_In, Hx].
  - intros (x & Heq & Hx). exists x.
    split; [apply list_elem_of_In, Hx | apply sameRoute_key; congruence].
Qed.

Lemma filter_other_all r l :
  Forall (fun f => sameRoute f r = false)
    (List.filter (fun f => negb (sameRoute f r)) l).
Proof.
  apply Forall_forall. intros x Hx.
  apply list_elem_of_In, filter_In in Hx as [_ Hx].
  apply negb_true_iff, Hx.
Qed.

Lemma filter_other_key r l :
  routeKey r ∉ routeKey <$> List.filter (fun f => negb (sameRoute f r)) l.
Proof.
  rewrite list_elem_of_fmap. intros (x & Heq & Hx).
  apply list_elem_of_In, filter_In in Hx as [_ Hx].
  apply negb_true_iff, sameRoute_key_false in Hx. congruence.
Qed.

Lemma distinct_sublist l1 l2 :
  l1 `sublist_of` l2 -> distinctRoutes l2 -> distinctRoutes l1.
Proof.
  unfold distinctRoutes. intros Hsub Hnd.
  pose proof (fmap_sublist routeKey _ _ Hsub) as Hkeys.
  eauto using sublist_NoDup.
Qed.



Lemma isWhiteSpace_lowerChar a : isWhiteSpace (lowerChar a) = isWhiteSpace a.
Proof. destruct a as [[] [] [] [] [] [] [] []]; reflexivity. Qed.

Lemma chars_toLowerCase s : chars (toLowerCase s) = map lowerChar (chars s).
Proof. induction s as [| a s IH]; simpl; [reflexivity | f_equal; exact IH]. Qed.

Lemma ofChars_map_lower l : ofChars (map lowerChar l) = toLowerCase (ofChars l).
Proof. induction l as [| a l IH]; simpl; [reflexivity | f_equal; exact IH]. Qed.

Lemma dropSpace_map_lower l :
  dropSpace (map lowerChar l) = map lowerChar (dropSpace l).
Proof.
  induction l as [| a l IH]; simpl; [reflexivity |].
  rewrite isWhiteSpace_lowerChar. destruct (isWhiteSpace a); [exact IH | reflexivity].
Qed.

Lemma reverse_map_lower l :
  reverse (map lowerChar l) = map lowerChar (reverse l).
Proof. symmetry. apply (fmap_reverse lowerChar). Qed.

Lemma trim_toLowerCase s : trim (toLowerCase s) = toLowerCase (trim s).
Proof.
  unfold trim. rewrite chars_toLowerCase, dropSpace_map_lower, reverse_map_lower,
    dropSpace_map_lower, reverse_map_lower. apply ofChars_map_lower.
Qed.

Lemma orElse_empty s : orElse s EmptyString = s.
Proof. unfold orElse. destruct (decide (s = EmptyString)); congruence. Qed.

Lemma norm_stable s :
  norm (trim s) = norm s /\ norm (toLowerCase s) = norm s /\ norm (norm s) = norm s.
Proof.
  unfold norm. rewrite !orElse_empty. split; [rewrite trim_idempotent; reflexivity |].
  split.
  - rewrite trim_toLowerCase, toLowerCase_idempotent. reflexivity.
  - rewrite trim_toLowerCase, trim_idempotent, toLowerCase_idempotent. reflexivity.
Qed.

(** X22. [sameRoute] is an equivalence that ignores letter case and outer
    white space: replacing the origin and destination of a route by their
    trimmed or lower-cased forms gives the same route. *)
Theorem sameRoute_equivalence (a b c : SavedRoute) :
  sameRoute a a = true /\
  sameRoute a b = sameRoute b a /\
  (sameRoute a b = true -> sameRoute b c = true -> sameRoute a c = true) /\
  (forall i1 i2 i3 st f ca,
     sameRoute (mkSavedRoute i1 i2 i3 (trim (origin a)) (toLowerCase (destination a)) st f ca) a
     = true).
Proof.
  split; [apply sameRoute_key; reflexivity |]. split; [| split].
  - destruct (sameRoute a b) eqn:E1; destruct (sameRoute b a) eqn:E2; try reflexivity.
    + apply sameRoute_key in E1. apply sameRoute_key_false in E2. congruence.
    + apply sameRoute_key in E2. apply sameRoute_key_false in E1. congruence.
  - rewrite !sameRoute_key. congruence.
  - intros. apply sameRoute_key. unfold routeKey. cbn [origin destination].
    destruct (norm_stable (origin a)) as (-> & _).
    destruct (norm_stable (destination a)) as (_ & -> & _). reflexivity.
Qed.

End RouteStoreFacts.


Lemma sameRoute_equivalence_witness :
  RouteStore.sameRoute
    (RouteStore.mkSavedRoute None None None " Denver " "CHEYENNE" None None None)
    (RouteStore.mkSavedRoute None None None "denver" "Cheyenne" None None None)
  = true.
Proof.
  destruct (sameRoute_equivalence
              (RouteStore.mkSavedRoute None None None " Denver " "CHEYENNE" None None None)
              (RouteStore.mkSavedRoute None None None "Denver" "cheyenne" None None None)
              (RouteStore.mkSavedRoute None None None "denver" "Cheyenne" None None None))
    as (_ & _ & Htrans & _).
  apply Htrans; reflexivity.
Defined.

(** ** The API root *)
Section ApiRootFacts.
Import Str StrEnds ApiRoot.

Lemma chars_ofChars l : chars (ofChars l) = l.
Proof. apply String.list_ascii_of_string_of_list_ascii. Qed.

Lemma ofChars_chars s : ofChars (chars s) = s.
Proof. apply String.string_of_list_ascii_of_string. Qed.

Lemma ofChars_nil l : ofChars l = EmptyString <-> l = [].
Proof. destruct l; simpl; split; congruence. Qed.

Lemma dropSlashes_idempotent l : dropSlashes (dropSlashes l) = dropSlashes l.
Proof.
  induction l as [| a l IH]; simpl; [reflexivity |].
  destruct (Ascii.eqb a "/") eqn:E; [exact IH |]. simpl. rewrite E. reflexivity.
Qed.

Lemma dropSlashes_suffix l : exists k, l = k ++ dropSlashes l.
Proof.
  induction l as [| a l [k IH]]; simpl; [exists []; reflexivity |].
  destruct (Ascii.eqb a "/"); [| exists []; reflexivity].
  exists (a :: k). simpl. f_equal. exact IH.
Qed.

Lemma lower_i c :
  lowerChar c = "i"%char -> isWhiteSpace c = false /\ Ascii.eqb c "/" = false.
Proof. destruct c as [[] [] [] [] [] [] [] []]; simpl; intros H; try discriminate H; split; reflexivity. Qed.

Lemma normalShape_last l :
  normalShape l -> exists k c, l = k ++ [c] /\ lowerChar c = "i"%char.
Proof.
  intros [_ [k Hk]].
  destruct l as [| a l _] using rev_ind.
  - destruct k; discriminate.
  - exists l, a. split; [reflexivity |].
    rewrite map_app in Hk. simpl in Hk.
    change apiChars with (["/"; "a"; "p"]%char ++ ["i"%char]) in Hk.
    rewrite app_assoc in Hk. apply app_inj_tail in Hk as [_ Hk]. exact Hk.
Qed.

Lemma endsWith_api l :
  endsWith (toLowerCase (ofChars l)) "/api" = true
  <-> apiChars `suffix_of` map lowerChar l.
Proof.
  unfold endsWith. rewrite bool_decide_eq_true, chars_toLowerCase, chars_ofChars.
  reflexivity.
Qed.

(** A string of that shape is returned as it is. *)
Lemma normalizeApiRoot_fixed l :
  normalShape l -> normalizeApiRoot (ofChars l) = ofChars l.
Proof.
  intros Hshape. destruct (normalShape_last l Hshape) as (k & c & -> & Hc).
  destruct (lower_i c Hc) as [Hws Hslash]. destruct Hshape as [Hclean Hapi].
  unfold normalizeApiRoot. cbv zeta. rewrite orElse_empty.
  assert (Htrim : trim (ofChars (k ++ [c])) = ofChars (k ++ [c])).
  { unfold trim. rewrite chars_ofChars, (dropSpace_id _ Hclean), reverse_snoc.
    rewrite (dropSpace_id (c :: reverse k)) by exact Hws.
    rewrite <- reverse_snoc, reverse_involutive. reflexivity. }
  rewrite Htrim.
  rewrite decide_False by (rewrite ofChars_nil; intros H; destruct k; discriminate).
  assert (Hstrip : stripSlashes (ofChars (k ++ [c])) = ofChars (k ++ [c])).
  { unfold stripSlashes. rewrite chars_ofChars, reverse_snoc. cbn [dropSlashes].
    rewrite Hslash, <- reverse_snoc, reverse_involutive. reflexivity. }
  rewrite Hstrip, (proj2 (endsWith_api (k ++ [c])) Hapi). reflexivity.
Qed.

Lemma stripped_clean l :
  startsClean l -> startsClean (reverse (dropSlashes (reverse l))).
Proof.
  intros Hl. destruct (dropSlashes_suffix (reverse l)) as [k Hk].
  apply (f_equal reverse) in Hk. rewrite reverse_involutive, reverse_app in Hk.
  destruct (reverse (dropSlashes (reverse l))) as [| a t]; [exact I |].
  rewrite Hk in Hl. exact Hl.
Qed.

Lemma normalizeApiRoot_shape raw :
  exists l c, normalizeApiRoot raw = ofChars l /\ normalShape l /\
              last l = Some c /\ lowerChar c = "i"%char.
Proof.
  unfold normalizeApiRoot. cbv zeta. rewrite orElse_empty.
  destruct (decide (trim raw = EmptyString)) as [Hempty | Hne].
  - exists (chars defaultRoot), "i"%char. split; [reflexivity |].
    split; [| split; reflexivity]. split; [reflexivity |].
    exists (chars "http://10.0.2.2:8000"). reflexivity.
  - set (t := reverse (dropSlashes (reverse (chars (trim raw))))).
    assert (Hclean : startsClean t).
    { apply stripped_clean. unfold trim. rewrite chars_ofChars.
      apply startsClean_reverse_dropSpace_reverse, dropSpace_startsClean. }
    unfold stripSlashes. fold t.
    destruct (endsWith (toLowerCase (ofChars t)) "/api") eqn:E; cbn [negb].
    + apply endsWith_api in E.
      destruct (normalShape_last t (conj Hclean E)) as (k & c & Ht & Hc).
      exists t, c. split; [reflexivity |]. split; [split; assumption |].
      split; [rewrite Ht; apply last_snoc | exact Hc].
    + exists (t ++ apiChars), "i"%char.
      split; [rewrite <- (ofChars_chars (ofChars t +:+ "/api")), chars_app, chars_ofChars;
              reflexivity |].
      split; [| split; [| reflexivity]].
      * split.
        -- destruct t as [| a t']; [reflexivity | exact Hclean].
        -- rewrite map_app. exists (map lowerChar t). reflexivity.
      * change apiChars with (["/"; "a"; "p"]%char ++ ["i"%char]).
        rewrite app_assoc. apply last_snoc.
Qed.

(** X23. [normalizeApiRoot] yields a normal form: the result is not
    empty, ends with "/api" in some letter case, does not end with a
    slash, and normalising it again changes nothing. *)
Theorem normalizeApiRoot_normal (raw : string) :
  normalizeApiRoot raw <> EmptyString /\
  endsWith (toLowerCase (normalizeApiRoot raw)) "/api" = true /\
  endsWith (normalizeApiRoot raw) "/" = false /\
  normalizeApiRoot (normalizeApiRoot raw) = normalizeApiRoot raw.
Proof.
  pose proof (normalizeApiRoot_shape raw) as Hshape.
  destruct Hshape as (l & c & -> & Hshape & Hlast & Hc).
  split; [| split; [| split]].
  - rewrite ofChars_nil. intros ->. discriminate.
  - apply endsWith_api, Hshape.
  - unfold endsWith. apply bool_decide_eq_false. rewrite chars_ofChars.
    intros [k Hk]. change (chars "/") with ["/"%char] in Hk.
    rewrite Hk, last_snoc in Hlast.
    injection Hlast as <-. discriminate.
  - apply normalizeApiRoot_fixed, Hshape.
Qed.

End ApiRootFacts.

(** ** Editing the stops *)
Section StopsEditorFacts.
Import Home StopsEditor.

Lemma filterFrom_none {A} (idx : Z) (l : list A) : forall i,
  (idx < i \/ i + Z.of_nat (length l) <= idx) ->
  Alerts.filterFrom (fun _ j => negb (j =? idx)) i l = l.
Proof.
  induction l as [| a l IH]; intros i Hi; [reflexivity |].
  cbn [Alerts.filterFrom length] in *.
  replace (i =? idx) with false by (symmetry; apply Z.eqb_neq; lia).
  cbn [negb]. f_equal. apply IH. lia.
Qed.

Lemma filterFrom_at {A} (l : list A) : forall (n : nat) i,
  Alerts.filterFrom (fun _ j => negb (j =? i + Z.of_nat n)) i l
  = take n l ++ drop (S n) l.
Proof.
  induction l as [| a l IH]; intros n i.
  - destruct n; reflexivity.
  - cbn [Alerts.filterFrom]. destruct n as [| n].
    + replace (i =? i + Z.of_nat 0) with true by (symmetry; apply Z.eqb_eq; lia).
      cbn [negb take drop app]. apply filterFrom_none. lia.
    + replace (i =? i + Z.of_nat (S n)) with false by (symmetry; apply Z.eqb_neq; lia).
      cbn [negb take drop app]. f_equal.
      replace (i + Z.of_nat (S n)) with (i + 1 + Z.of_nat n) by lia. apply IH.
Qed.

Lemma mapFrom_none (idx : Z) patch (l : list StopPoint) : forall i,
  (idx < i \/ i + Z.of_nat (length l) <= idx) ->
  mapFrom (fun s j => if j =? idx then applyPatch s patch else s) i l = l.
Proof.
  induction l as [| a l IH]; intros i Hi; [reflexivity |].
  cbn [mapFrom length] in *.
  replace (i =? idx) with false by (symmetry; apply Z.eqb_neq; lia).
  f_equal. apply IH. lia.
Qed.

Lemma mapFrom_at patch (l : list StopPoint) : forall (n : nat) i,
  mapFrom (fun s j => if j =? i + Z.of_nat n then applyPatch s patch else s) i l
  = alter (fun s => applyPatch s patch) n l.
Proof.
  induction l as [| a l IH]; intros n i; [reflexivity |].
  cbn [mapFrom]. destruct n as [| n].
  - replace (i =? i + Z.of_nat 0) with true by (symmetry; apply Z.eqb_eq; lia).
    cbn. f_equal. apply mapFrom_none. lia.
  - replace (i =? i + Z.of_nat (S n)) with false by (symmetry; apply Z.eqb_neq; lia).
    cbn. f_equal.
    replace (i + Z.of_nat (S n)) with (i + 1 + Z.of_nat n) by lia. apply IH.
Qed.

(** X24. Removing the stop at an index deletes that entry and keeps the
    others in order; an index outside the list removes nothing; removing
    the stop just added restores the list. *)
Theorem removeStop_spec (n : nat) (idx : Z) (stops : list StopPoint) :
  removeStop (Z.of_nat n) stops = take n stops ++ drop (S n) stops /\
  (idx < 0 \/ Z.of_nat (length stops) <= idx -> removeStop idx stops = stops) /\
  removeStop (Z.of_nat (length stops)) (onAddStop stops) = stops.
Proof.
  assert (Hat : forall k l, removeStop (Z.of_nat k) l = take k l ++ drop (S k) l).
  { intros k l. unfold removeStop.
    replace (Z.of_nat k) with (0 + Z.of_nat k) by lia. apply filterFrom_at. }
  split; [apply Hat |]. split.
  - intros Hout. unfold removeStop. apply filterFrom_none. lia.
  - rewrite Hat. unfold onAddStop.
    rewrite take_app_length, drop_ge by (rewrite length_app; simpl; lia).
    apply app_nil_r.
Qed.

(** X25. Updating the stop at an index patches that entry and no other:
    the list keeps its length, the entry at the index receives the keys
    of the patch, every other entry is unchanged; an index outside the
    list changes nothing. *)
Theorem updateStop_spec (n : nat) (idx : Z) (patch : StopPatch)
    (stops : list StopPoint) :
  updateStop (Z.of_nat n) patch stops
  = alter (fun s => applyPatch s patch) n stops /\
  length (updateStop (Z.of_nat n) patch stops) = length stops /\
  updateStop (Z.of_nat n) patch stops !! n
  = (fun s => applyPatch s patch) <$> stops !! n /\
  (forall m, m <> n -> updateStop (Z.of_nat n) patch stops !! m = stops !! m) /\
  (idx < 0 \/ Z.of_nat (length stops) <= idx -> updateStop idx patch stops = stops).
Proof.
  assert (Hat : updateStop (Z.of_nat n) patch stops
                = alter (fun s => applyPatch s patch) n stops).
  { unfold updateStop. replace (Z.of_nat n) with (0 + Z.of_nat n) by lia.
    apply mapFrom_at. }
  rewrite Hat. split; [reflexivity |].
  split; [apply length_alter |].
  split; [rewrite list_lookup_alter; destruct (decide (n = n)); congruence |].
  split; [intros m Hm; rewrite list_lookup_alter;
          destruct (decide (n = m)); congruence |].
  intros Hout. unfold updateStop. apply mapFrom_none. lia.
Qed.

End StopsEditorFacts.

Lemma removeStop_spec_witness :
  StopsEditor.removeStop 5 [Home.mkStop "Boulder" "stop"]
  = [Home.mkStop "Boulder" "stop"].
Proof.
  apply (proj1 (proj2 (removeStop_spec 0 5 [Home.mkStop "Boulder" "stop"]))).
  right. simpl. lia.
Defined.

Lemma updateStop_spec_witness :
  StopsEditor.updateStop 0 (StopsEditor.mkPatch (Some "Fort Collins") None)
    [Home.mkStop "Boulder" "stop"; Home.mkStop "" "gas"] !! 1%nat
  = Some (Home.mkStop "" "gas").
Proof.
  destruct (updateStop_spec 0 0 (StopsEditor.mkPatch (Some "Fort Collins") None)
              [Home.mkStop "Boulder" "stop"; Home.mkStop "" "gas"])
    as (_ & _ & _ & Hother & _).
  apply (Hother 1%nat). discriminate.
Defined.
